(** * Image2Code: the code-block extractor, the prompt builder and the
      generation batch of the two application variants.

    Two variants of the application live in the repository:
    - the server-proxied one: the page [pages/index.tsx] posts to the API
      route [handler], whose [generateCodeFromImage] extracts with the
      regular expression [/```(?:html)?\s*([\s\S]*?)```/g];
    - the client-side one: the page calls its own [generateCodeFromImage],
      which extracts with [/```(?:javascript|js)?\s*([\s\S]*?)```/g].

    JavaScript strings are sequences of UTF-16 code units; they are modelled
    as lists of code units ([N]).  Regular expressions are modelled by a
    backtracking matcher in continuation-passing style, the way ECMAScript
    defines them. *)

From Stdlib Require Import String Ascii NArith Lia.
From stdpp Require Import base list gmap.

Open Scope N_scope.
Open Scope nat_scope.
Open Scope list_scope.

(** ** JavaScript strings *)

Module JS.

Definition code_unit := N.
Definition jsstring := list code_unit.

(** An ASCII literal as a JavaScript string. *)
Fixpoint lit (s : string) : jsstring :=
  match s with
  | EmptyString => []
  | String a t => N_of_ascii a :: lit t
  end.

(** The line feed, written [\n] in the source. *)
Definition LF : code_unit := 10%N.
Definition BACKTICK : code_unit := 96%N.

(** WhiteSpace and LineTerminator code points of ECMAScript: the characters
    that [\s] matches and that [String.prototype.trim] strips. *)
Definition is_space (c : code_unit) : bool :=
  (N.eqb c 9 || N.eqb c 10 || N.eqb c 11 || N.eqb c 12 || N.eqb c 13
   || N.eqb c 32 || N.eqb c 160 || N.eqb c 5760
   || (N.leb 8192 c && N.leb c 8202)
   || N.eqb c 8232 || N.eqb c 8233 || N.eqb c 8239 || N.eqb c 8287
   || N.eqb c 12288 || N.eqb c 65279)%N.

Fixpoint trimStart (s : jsstring) : jsstring :=
  match s with
  | [] => []
  | c :: t => if is_space c then trimStart t else s
  end.

Definition trimEnd (s : jsstring) : jsstring := rev (trimStart (rev s)).

(** [String.prototype.trim]. *)
Definition trim (s : jsstring) : jsstring := trimEnd (trimStart s).

(** Truthiness of a string: the empty string is the only falsy one. *)
Definition truthy (s : jsstring) : bool :=
  match s with [] => false | _ :: _ => true end.

(** [s.split(',')]: the pieces between the separators. *)
Fixpoint split_on (sep : code_unit) (s : jsstring) : list jsstring :=
  match s with
  | [] => [[]]
  | c :: t =>
      if N.eqb c sep then [] :: split_on sep t
      else match split_on sep t with
           | [] => [[c]]
           | p :: ps => (c :: p) :: ps
           end
  end.

End JS.
Export JS.

(** ** Regular expressions: a backtracking matcher *)

Module RegExp.

(** The part of the pattern syntax the two literals use. *)
Inductive regex : Type :=
| Empty                                   (* the empty pattern *)
| Char (c : code_unit)                    (* a literal character *)
| Class (p : code_unit -> bool)           (* a character class *)
| Seq (r1 r2 : regex)                     (* r1 r2 *)
| Alt (r1 r2 : regex)                     (* r1|r2, left alternative first *)
| Star (greedy : bool) (r : regex)        (* r* and r*? *)
| Group (n : nat) (r : regex).            (* the n-th capturing group *)

(** [r?], greedy: [r] is tried before the empty alternative. *)
Definition Opt (r : regex) : regex := Alt r Empty.

(** A literal word. *)
Fixpoint Word (s : jsstring) : regex :=
  match s with
  | [] => Empty
  | c :: t => Seq (Char c) (Word t)
  end.

(** A match state: the input from the current end index on, and the
    captures. *)
Record mstate : Type := MState {
  rest : jsstring;
  caps : list (option jsstring)
}.

Definition cont := mstate -> option mstate.

Definition advance (x : mstate) (t : jsstring) : mstate :=
  MState t (caps x).

(** The text matched between state [x] and a later state [y]. *)
Definition consumed (x y : mstate) : jsstring :=
  take (length (rest x) - length (rest y)) (rest x).

(** The captures are kept in a list read at index [n] for group [n]; slot 0,
    the whole match in JavaScript, is left unused (see [whole] below).
    Setting capture [n] extends the list when needed. *)
Fixpoint set_cap (n : nat) (v : jsstring) (cs : list (option jsstring))
  : list (option jsstring) :=
  match n, cs with
  | O, [] => [Some v]
  | O, _ :: t => Some v :: t
  | S m, [] => None :: set_cap m v []
  | S m, c :: t => c :: set_cap m v t
  end.

(** The repeat matcher: [m] is the matcher of the repeated atom.  An
    iteration that consumes nothing is rejected, as in ECMAScript; the fuel
    is the number of iterations still allowed, and [S (length input)] is
    never exhausted because every iteration consumes. *)
Fixpoint repeat_matcher (m : cont -> cont) (greedy : bool) (k : cont)
    (fuel : nat) (x : mstate) : option mstate :=
  match fuel with
  | O => k x
  | S fuel' =>
      let again (y : mstate) :=
        if Nat.ltb (length (rest y)) (length (rest x))
        then repeat_matcher m greedy k fuel' y
        else None in
      if greedy then
        match m again x with
        | Some z => Some z
        | None => k x
        end
      else
        match k x with
        | Some z => Some z
        | None => m again x
        end
  end.

Fixpoint matcher (r : regex) (k : cont) (x : mstate) {struct r}
  : option mstate :=
  match r with
  | Empty => k x
  | Char c =>
      match rest x with
      | c' :: t => if N.eqb c' c then k (advance x t) else None
      | [] => None
      end
  | Class p =>
      match rest x with
      | c' :: t => if p c' then k (advance x t) else None
      | [] => None
      end
  | Seq r1 r2 => matcher r1 (matcher r2 k) x
  | Alt r1 r2 =>
      match matcher r1 k x with
      | Some z => Some z
      | None => matcher r2 k x
      end
  | Star greedy r1 =>
      repeat_matcher (matcher r1) greedy k (S (length (rest x))) x
  | Group n r1 =>
      matcher r1
        (fun y => k (MState (rest y) (set_cap n (consumed x y) (caps y)))) x
  end.

(** A successful match: where it starts, the text it covers and the
    captures. *)
Record match_result : Type := MatchResult {
  index : nat;
  whole : jsstring;
  groups : list (option jsstring)
}.

(** [regex.exec(s)] for a fresh regular expression (lastIndex 0): the start
    positions are tried from left to right. *)
Fixpoint exec_from (r : regex) (s : jsstring) (i : nat)
  : option match_result :=
  match matcher r Some (MState s []) with
  | Some y => Some (MatchResult i (consumed (MState s []) y) (caps y))
  | None =>
      match s with
      | [] => None
      | _ :: t => exec_from r t (S i)
      end
  end.

Definition exec (r : regex) (s : jsstring) : option match_result :=
  exec_from r s 0.

(** [match[n]] for n >= 1; [None] is undefined. *)
Definition group (m : match_result) (n : nat) : option jsstring :=
  match groups m !! n with
  | Some (Some v) => Some v
  | _ => None
  end.

End RegExp.
Export RegExp.

(** ** The model call and the two [generateCodeFromImage] *)

(** What is sent to the generative model: [[finalPrompt, image]], the image
    carrying [imageBase64.split(',')[1]] ([None] is undefined). *)
Record model_call : Type := ModelCall {
  call_prompt : jsstring;
  call_image_data : option jsstring
}.

(** What the awaited model call does: it returns the response text (taken
    to be a string) or it throws. *)
Inductive model_outcome : Type :=
| ModelText (response : jsstring)
| ModelThrows.

(** The object [generateCodeFromImage] returns. *)
Record generation : Type := Generation {
  gen_fullResponse : jsstring;
  gen_code : jsstring
}.

(** The result of an async function or of a promise. *)
Inductive settled (A : Type) : Type :=
| Fulfilled (v : A)
| Rejected.
Arguments Fulfilled {A} v.
Arguments Rejected {A}.

Definition FENCE : jsstring := [BACKTICK; BACKTICK; BACKTICK].

(** [[\s\S]]: the union of [\s] and its complement. *)
Definition any_char (c : code_unit) : bool := is_space c || negb (is_space c).

(** The steps the two variants share, in source order. *)
Definition image_data (imageBase64 : jsstring) : option jsstring :=
  split_on 44%N imageBase64 !! 1.

Definition finalPrompt (prompt userInput : jsstring) : jsstring :=
  if truthy (trim userInput)
  then prompt ++ [LF; LF] ++ lit "User input: " ++ userInput
  else prompt.

Module Server.

(** [/```(?:html)?\s*([\s\S]*?)```/g] *)
Definition regex : RegExp.regex :=
  Seq (Word FENCE)
   (Seq (Opt (Word (lit "html")))
    (Seq (Star true (Class is_space))
     (Seq (Group 1 (Star false (Class any_char)))
          (Word FENCE)))).

(** [match ? match[1].trim() : ''].  [None] stands for the TypeError of
    calling [trim] on undefined. *)
Definition extractedCode (response : jsstring) : option jsstring :=
  match exec regex response with
  | Some m =>
      match group m 1 with
      | Some c => Some (trim c)
      | None => None
      end
  | None => Some []
  end.

Definition generateCodeFromImage (imageBase64 prompt userInput : jsstring)
    (world : model_outcome) : list model_call * settled generation :=
  let call := ModelCall (finalPrompt prompt userInput) (image_data imageBase64) in
  match world with
  | ModelThrows => ([call], Rejected)
  | ModelText response =>
      match extractedCode response with
      | Some code => ([call], Fulfilled (Generation response code))
      | None => ([call], Rejected)
      end
  end.

End Server.

Module Client.

(** [/```(?:javascript|js)?\s*([\s\S]*?)```/g] *)
Definition regex : RegExp.regex :=
  Seq (Word FENCE)
   (Seq (Opt (Alt (Word (lit "javascript")) (Word (lit "js"))))
    (Seq (Star true (Class is_space))
     (Seq (Group 1 (Star false (Class any_char)))
          (Word FENCE)))).

(** [match ? match[1].trim() : response] *)
Definition extractedCode (response : jsstring) : option jsstring :=
  match exec regex response with
  | Some m =>
      match group m 1 with
      | Some c => Some (trim c)
      | None => None
      end
  | None => Some response
  end.

Definition generateCodeFromImage (imageBase64 prompt userInput : jsstring)
    (world : model_outcome) : list model_call * settled generation :=
  let call := ModelCall (finalPrompt prompt userInput) (image_data imageBase64) in
  match world with
  | ModelThrows => ([call], Rejected)
  | ModelText response =>
      match extractedCode response with
      | Some code => ([call], Fulfilled (Generation response code))
      | None => ([call], Rejected)
      end
  end.

End Client.

(** ** The API route *)

Module Api.

(** The request as the handler reads it: the method and the three fields it
    takes from the JSON body ([None] is undefined). *)
Record request : Type := Request {
  method : jsstring;
  body_imageBase64 : option jsstring;
  body_prompt : option jsstring;
  body_userInput : option jsstring
}.

(** The JSON bodies the handler sends. *)
Inductive body : Type :=
| BodyGeneration (g : generation)
| BodyMessage (message : jsstring).

Record response : Type := Response {
  status : nat;
  json : body
}.

(** [!v] for a field of the body. *)
Definition missing (v : option jsstring) : bool :=
  match v with
  | None => true
  | Some s => negb (truthy s)
  end.

Definition str_eqb (a b : jsstring) : bool := bool_decide (a = b).

(** The handler, with the calls it makes to the model.  An undefined
    [userInput] makes [userInput.trim()] throw inside the [try], before the
    model is called. *)
Definition handler (req : request) (world : model_outcome)
  : list model_call * response :=
  if negb (str_eqb (method req) (lit "POST")) then
    ([], Response 405 (BodyMessage (lit "Method not allowed")))
  else if missing (body_imageBase64 req) || missing (body_prompt req) then
    ([], Response 400 (BodyMessage (lit "Missing required parameters")))
  else
    match body_imageBase64 req, body_prompt req, body_userInput req with
    | Some image, Some prompt, Some userInput =>
        match Server.generateCodeFromImage image prompt userInput world with
        | (calls, Fulfilled result) =>
            (calls, Response 200 (BodyGeneration result))
        | (calls, Rejected) =>
            (calls, Response 500 (BodyMessage (lit "Error generating code")))
        end
    | _, _, _ =>
        ([], Response 500 (BodyMessage (lit "Error generating code")))
    end.

(** [result.code] and [result.fullResponse] on a parsed body. *)
Definition code_of (b : body) : option jsstring :=
  match b with
  | BodyGeneration g => Some (gen_code g)
  | BodyMessage _ => None
  end.

Definition fullResponse_of (b : body) : option jsstring :=
  match b with
  | BodyGeneration g => Some (gen_fullResponse g)
  | BodyMessage _ => None
  end.

End Api.

(** ** Promise.all *)

Section PromiseAll.
Context {A : Type}.

(** The promises settle in the order [order] (indices into the array passed
    to [Promise.all]).  A fulfilment stores its value in the slot of its own
    index and resolves the whole once nothing remains; the first rejection
    rejects the whole.  [None] is a promise still pending. *)
Fixpoint promise_all_loop (outcomes : list (settled A)) (order : list nat)
    (values : list (option A)) (remaining : nat)
  : option (settled (list (option A))) :=
  match order with
  | [] => None
  | i :: order' =>
      match outcomes !! i with
      | Some (Fulfilled v) =>
          let values' := <[i := Some v]> values in
          match remaining - 1 with
          | O => Some (Fulfilled values')
          | S _ as remaining' =>
              promise_all_loop outcomes order' values' remaining'
          end
      | Some Rejected => Some Rejected
      | None => promise_all_loop outcomes order' values remaining
      end
  end.

Definition promise_all (outcomes : list (settled A)) (order : list nat)
  : option (settled (list (option A))) :=
  match outcomes with
  | [] => Some (Fulfilled [])
  | _ :: _ =>
      promise_all_loop outcomes order
        (replicate (length outcomes) None) (length outcomes)
  end.

End PromiseAll.

(** ** The page component *)

Module Home.

Record output : Type := Output {
  id : nat;
  code : option jsstring;
  fullResponse : option jsstring
}.

(** The state of the component that [generateCode] and [handleCodeChange]
    read and write. *)
Record state : Type := State {
  imageBase64 : jsstring;
  outputs : list output;
  loading : bool;
  hasStartedGenerating : bool;
  concurrentRequests : nat;
  prompt : jsstring;
  userInput : jsstring;
  showErrorModal : bool
}.

(** [output.id === id ? {...output, code: newCode} : output] *)
Definition handleCodeChange (i : nat) (newCode : jsstring) (st : state)
  : state :=
  State (imageBase64 st)
    (map (fun o => if Nat.eqb (id o) i
                   then Output (id o) (Some newCode) (fullResponse o)
                   else o)
         (outputs st))
    (loading st) (hasStartedGenerating st) (concurrentRequests st)
    (prompt st) (userInput st) (showErrorModal st).

(** [generateCode] up to its [await]: [None] is the early return, otherwise
    the state with [setLoading(true)], [setHasStartedGenerating(true)] and
    [setOutputs([])] applied, as it is while the batch is in flight. *)
Definition submit (st : state) : option state :=
  if negb (truthy (imageBase64 st)) then None
  else Some (State (imageBase64 st) [] true true (concurrentRequests st)
               (prompt st) (userInput st) (showErrorModal st)).

Definition setOutputs (outs : list output) (st : state) : state :=
  State (imageBase64 st) outs (loading st) (hasStartedGenerating st)
    (concurrentRequests st) (prompt st) (userInput st) (showErrorModal st).

(** The [catch] block. *)
Definition catch (st : state) : state :=
  State (imageBase64 st) (outputs st) (loading st) (hasStartedGenerating st)
    (concurrentRequests st) (prompt st) (userInput st) true.

(** The [finally] block. *)
Definition finally (st : state) : state :=
  State (imageBase64 st) (outputs st) false (hasStartedGenerating st)
    (concurrentRequests st) (prompt st) (userInput st) (showErrorModal st).

Section Results.
Context {R : Type} (code_of fullResponse_of : R -> option jsstring).

(** [results.map((result, index) => ({id: index + 1, code: result.code,
    fullResponse: result.fullResponse}))]; reading a property of an
    undefined result throws ([None]). *)
Fixpoint map_results (index : nat) (results : list (option R))
  : option (list output) :=
  match results with
  | [] => Some []
  | None :: _ => None
  | Some result :: t =>
      match map_results (S index) t with
      | Some outs =>
          Some (Output (index + 1) (code_of result) (fullResponse_of result)
                :: outs)
      | None => None
      end
  end.

(** [generateCode] after the [await]: the rest of the [try], the [catch]
    and the [finally]. *)
Definition settle (all : settled (list (option R))) (st : state) : state :=
  match all with
  | Fulfilled results =>
      match map_results 0 results with
      | Some outs => finally (setOutputs outs st)
      | None => finally (catch st)
      end
  | Rejected => finally (catch st)
  end.

End Results.

End Home.

(** *** The page of the server-proxied variant *)

Module ProxyPage.
Import Home.

(** What happens to one [fetch('/api/generate', ...)]: the request does not
    reach the route and [fetch] rejects, or the route serves it with the
    given outcome of its model call. *)
Inductive fetch_outcome : Type :=
| NetworkError
| Served (world : model_outcome).

(** [fetch(...).then((res) => res.json())] for one request of the batch. *)
Definition request (st : state) (w : fetch_outcome)
  : list model_call * settled Api.body :=
  match w with
  | NetworkError => ([], Rejected)
  | Served world =>
      let req := Api.Request (lit "POST") (Some (imageBase64 st))
                   (Some (prompt st)) (Some (userInput st)) in
      let '(calls, res) := Api.handler req world in
      (calls, Fulfilled (Api.json res))
  end.

(** The requests of a batch: [Array(concurrentRequests).fill(0).map(...)]. *)
Definition requests (st : state) (world : nat -> fetch_outcome)
  : list (list model_call * settled Api.body) :=
  map (fun i => request st (world i)) (seq 0 (concurrentRequests st)).

(** [generateCode]: the final state (or the in-flight state when
    [Promise.all] stays pending) and the calls made to the model. *)
Definition generateCode (st : state) (world : nat -> fetch_outcome)
    (order : list nat) : state * list model_call :=
  match submit st with
  | None => (st, [])
  | Some st1 =>
      let rs := requests st world in
      let calls := concat (map fst rs) in
      match promise_all (map snd rs) order with
      | Some all => (settle Api.code_of Api.fullResponse_of all st1, calls)
      | None => (st1, calls)
      end
  end.

End ProxyPage.

(** *** The page of the client-side variant *)

Module ClientPage.
Import Home.

Definition request (st : state) (w : model_outcome)
  : list model_call * settled generation :=
  Client.generateCodeFromImage (imageBase64 st) (prompt st) (userInput st) w.

Definition requests (st : state) (world : nat -> model_outcome)
  : list (list model_call * settled generation) :=
  map (fun i => request st (world i)) (seq 0 (concurrentRequests st)).

Definition generateCode (st : state) (world : nat -> model_outcome)
    (order : list nat) : state * list model_call :=
  match submit st with
  | None => (st, [])
  | Some st1 =>
      let rs := requests st world in
      let calls := concat (map fst rs) in
      match promise_all (map snd rs) order with
      | Some all =>
          (settle (fun r => Some (gen_code r))
                  (fun r => Some (gen_fullResponse r)) all st1, calls)
      | None => (st1, calls)
      end
  end.

End ClientPage.

(** ** The variants side by side, and the words of the specification *)

Inductive variant : Type := ServerRoute | ClientApp.

Definition extractedCode (v : variant) : jsstring -> option jsstring :=
  match v with
  | ServerRoute => Server.extractedCode
  | ClientApp => Client.extractedCode
  end.

(** The tags each regular expression names after the opening fence. *)
Definition own_tags (v : variant) : list jsstring :=
  match v with
  | ServerRoute => [lit "html"]
  | ClientApp => [lit "javascript"; lit "js"]
  end.

(** The value used when nothing matches. *)
Definition fallback (v : variant) (response : jsstring) : jsstring :=
  match v with
  | ServerRoute => []
  | ClientApp => response
  end.

(** [after_prefix w s]: what follows [w] when [s] starts with [w]. *)
Fixpoint after_prefix (w s : jsstring) : option jsstring :=
  match w, s with
  | [], _ => Some s
  | c :: w', c' :: s' => if N.eqb c' c then after_prefix w' s' else None
  | _ :: _, [] => None
  end.

(** [cut_at_fence s]: the text before and the text after the first fence of
    [s], if there is one. *)
Fixpoint cut_at_fence (s : jsstring) : option (jsstring * jsstring) :=
  match after_prefix FENCE s with
  | Some t => Some ([], t)
  | None =>
      match s with
      | [] => None
      | c :: t =>
          match cut_at_fence t with
          | Some (b, a) => Some (c :: b, a)
          | None => None
          end
      end
  end.

(** A response contains a fenced block when an opening fence is followed,
    anywhere later, by a closing fence. *)
Definition has_block (s : jsstring) : Prop :=
  exists pre mid post, s = pre ++ FENCE ++ mid ++ FENCE ++ post.

(** A language tag is a word: it holds no white space and no backtick. *)
Definition tag_word (w : jsstring) : Prop :=
  Forall (fun c => is_space c = false /\ c <> BACKTICK) w.

(** A fenced block the way the specification describes it: the opening
    fence, an optional language tag ended by the line break, the inner
    content, the closing fence. *)
Definition fenced_block (tag content : jsstring) : jsstring :=
  FENCE ++ tag ++ [LF] ++ content ++ FENCE.

(** The text after the opening fence once the variant's own tag, when the
    text starts with it, is dropped (the first tag listed wins). *)
Fixpoint drop_tag (tags : list jsstring) (s : jsstring) : jsstring :=
  match tags with
  | [] => s
  | w :: tags' =>
      match after_prefix w s with
      | Some t => t
      | None => drop_tag tags' s
      end
  end.

(** What a match starting at the very beginning of [s] captures. *)
Definition block_at (v : variant) (s : jsstring)
  : option (jsstring * jsstring) :=
  match after_prefix FENCE s with
  | Some t => cut_at_fence (trimStart (drop_tag (own_tags v) t))
  | None => None
  end.

(** The capture of the leftmost match. *)
Fixpoint first_block (v : variant) (s : jsstring) : option jsstring :=
  match block_at v s with
  | Some (b, _) => Some b
  | None =>
      match s with
      | [] => None
      | _ :: t => first_block v t
      end
  end.

(** ** Vocabulary of the proofs *)

(** The lazy star over [[\s\S]]: the continuation is tried after 0, 1, 2,
    ... characters. *)
Fixpoint scan_lazy (k : cont) (cs : list (option jsstring)) (s : jsstring)
  : option mstate :=
  match k (MState s cs) with
  | Some z => Some z
  | None =>
      match s with
      | [] => None
      | _ :: t => scan_lazy k cs t
      end
  end.

(** The greedy star over a class: the longest run first, then shorter
    ones. *)
Fixpoint scan_greedy (p : code_unit -> bool) (k : cont)
    (cs : list (option jsstring)) (s : jsstring) : option mstate :=
  match s with
  | c :: t =>
      if p c then
        match scan_greedy p k cs t with
        | Some z => Some z
        | None => k (MState s cs)
        end
      else k (MState s cs)
  | [] => k (MState [] cs)
  end.

(** The capturing group and the closing fence. *)
Definition closing_re : regex :=
  Seq (Group 1 (Star false (Class any_char))) (Word FENCE).

(** White space, the capturing group and the closing fence. *)
Definition body_re : regex := Seq (Star true (Class is_space)) closing_re.

Definition captured (cs : list (option jsstring))
    (r : option (jsstring * jsstring)) : option mstate :=
  match r with
  | Some (b, a) => Some (MState a (set_cap 1 b cs))
  | None => None
  end.

Definition no_backtick (w : jsstring) : Prop :=
  Forall (fun c => N.eqb c BACKTICK = false) w.

(** One attempt of either regular expression at the start of [s]. *)
Definition regex_of (v : variant) : regex :=
  match v with
  | ServerRoute => Server.regex
  | ClientApp => Client.regex
  end.

Definition generateCodeFromImage (v : variant)
  : jsstring -> jsstring -> jsstring -> model_outcome ->
    list model_call * settled generation :=
  match v with
  | ServerRoute => Server.generateCodeFromImage
  | ClientApp => Client.generateCodeFromImage
  end.

(** The state of a page once a batch has failed. *)
Definition failed (st : Home.state) : Home.state :=
  Home.State (Home.imageBase64 st) [] false true (Home.concurrentRequests st)
    (Home.prompt st) (Home.userInput st) true.

(** The outputs made of the results of a batch, in the order of the
    requests. *)
Definition outputs_of (gens : list generation) : list Home.output :=
  imap (fun i g => Home.Output (i + 1) (Some (gen_code g))
                     (Some (gen_fullResponse g))) gens.

(** Whether a block is untagged or carries one of the variant's own tags. *)
Definition recognised (v : variant) (tag : jsstring) : bool :=
  bool_decide (tag = [] \/ tag ∈ own_tags v).

(** The two pages side by side: what answers the requests of a batch is the
    route, reached by [fetch], or the model itself. *)
Inductive page_world : Type :=
| ViaRoute (world : nat -> ProxyPage.fetch_outcome)
| Direct (world : nat -> model_outcome).

Definition generateCode (w : page_world) (st : Home.state) (order : list nat)
  : Home.state * list model_call :=
  match w with
  | ViaRoute world => ProxyPage.generateCode st world order
  | Direct world => ClientPage.generateCode st world order
  end.

(** Every request of the batch succeeds, the i-th one with the i-th element
    of [gens]. *)
Definition all_succeed (w : page_world) (st : Home.state)
    (gens : list generation) : Prop :=
  match w with
  | ViaRoute world =>
      snd <$> ProxyPage.requests st world =
      (fun g => Fulfilled (Api.BodyGeneration g)) <$> gens
  | Direct world =>
      snd <$> ClientPage.requests st world = Fulfilled <$> gens
  end.

(** The batch is in flight: after the completions [order], [Promise.all] is
    still pending. *)
Definition in_flight (w : page_world) (st : Home.state) (order : list nat)
  : Prop :=
  match w with
  | ViaRoute world =>
      promise_all (snd <$> ProxyPage.requests st world) order = None
  | Direct world =>
      promise_all (snd <$> ClientPage.requests st world) order = None
  end.

(** A response contains a block exactly when its first fence is followed by
    another one. *)
Definition has_blockb (s : jsstring) : bool :=
  match cut_at_fence s with
  | Some (_, a) =>
      match cut_at_fence a with
      | Some _ => true
      | None => false
      end
  | None => false
  end.

(** ** Sample data *)

(** The response of the worked example of the specification. *)
Definition example_response : jsstring :=
  lit "Here is the code:" ++ [LF] ++ lit "```html" ++ [LF] ++
  lit "<div>hi</div>" ++ [LF] ++ lit "```" ++ [LF] ++ lit "Done.".

(** A response with a markup block followed by a script block. *)
Definition two_blocks_response : jsstring :=
  fenced_block (lit "html") (lit "<p>x</p>" ++ [LF]) ++ [LF] ++
  fenced_block (lit "js") (lit "f();" ++ [LF]).

(** A response whose fence is never closed. *)
Definition unterminated_response : jsstring :=
  lit "Sure:" ++ [LF] ++ lit "```html" ++ [LF] ++ lit "<div>".

Definition sample_image : jsstring := lit "data:image/png;base64,AAAA".

(** A page with an image and a prompt, two requests per batch, nothing
    generated yet. *)
Definition sample_state : Home.state :=
  Home.State sample_image [] false false 2 (lit "Make a page") [] false.

(** The same page with the prompt cleared. *)
Definition sample_state_no_prompt : Home.state :=
  Home.State sample_image [] false false 2 [] [] false.

(** The same page holding the results of an earlier batch. *)
Definition sample_state_with_results : Home.state :=
  Home.State sample_image
    [Home.Output 1 (Some (lit "<p>old</p>")) (Some (lit "old"))]
    false true 2 (lit "Make a page") [] false.

(** Every model call answers with the worked example. *)
Definition world_all_ok (i : nat) : model_outcome := ModelText example_response.

Definition served_all_ok (i : nat) : ProxyPage.fetch_outcome :=
  ProxyPage.Served (ModelText example_response).

(** The first model call answers, the second one throws. *)
Definition world_second_throws (i : nat) : model_outcome :=
  match i with
  | O => ModelText example_response
  | S _ => ModelThrows
  end.

Definition served_second_throws (i : nat) : ProxyPage.fetch_outcome :=
  ProxyPage.Served (world_second_throws i).


(** ** The rest of the page: the button, the prompt and its storage *)

Module Page.
Import Home.

(** [useState] initial values of the component. *)
Definition initial : state := State [] [] false false 5 [] [] false.

Definition setPrompt (p : jsstring) (st : state) : state :=
  State (imageBase64 st) (outputs st) (loading st) (hasStartedGenerating st)
    (concurrentRequests st) p (userInput st) (showErrorModal st).

(** [disabled={!imageBase64 || loading}] on the generate button. *)
Definition generateDisabled (st : state) : bool :=
  negb (truthy (imageBase64 st)) || loading st.

(** [localStorage]: a map from keys to values, both strings. *)
Definition SAVED_PROMPT : jsstring := lit "savedPrompt".

(** The effect that runs once after the first render: the saved prompt when
    there is a truthy one, otherwise the default prompt, which is stored. *)
Definition loadPrompt (defaultPrompt : jsstring) (st : state)
    (storage : gmap jsstring jsstring) : state * gmap jsstring jsstring :=
  match storage !! SAVED_PROMPT with
  | Some savedPrompt =>
      if truthy savedPrompt then (setPrompt savedPrompt st, storage)
      else (setPrompt defaultPrompt st,
            <[SAVED_PROMPT := defaultPrompt]> storage)
  | None =>
      (setPrompt defaultPrompt st, <[SAVED_PROMPT := defaultPrompt]> storage)
  end.

(** The effect that runs after a render whose prompt is [p]. *)
Definition savePrompt (p : jsstring) (storage : gmap jsstring jsstring)
  : gmap jsstring jsstring :=
  if truthy p then <[SAVED_PROMPT := p]> storage else storage.

(** Mounting the component: both effects run after the first render, whose
    prompt is the initial one; the prompt set by the first effect causes a
    second render, after which the saving effect runs again. *)
Definition mount (defaultPrompt : jsstring)
    (storage : gmap jsstring jsstring) : state * gmap jsstring jsstring :=
  let '(st1, storage1) := loadPrompt defaultPrompt initial storage in
  let storage2 := savePrompt (prompt initial) storage1 in
  (st1, savePrompt (prompt st1) storage2).

(** [onChange={(e) => setPrompt(e.target.value)}] on the prompt text area,
    followed by the saving effect; setting the value the state already holds
    causes no render and no effect. *)
Definition editPrompt (value : jsstring)
    (page : state * gmap jsstring jsstring)
  : state * gmap jsstring jsstring :=
  let '(st, storage) := page in
  if bool_decide (value = prompt st) then (st, storage)
  else (setPrompt value st, savePrompt value storage).

End Page.

(** ** The preview component *)

Module CodePreview.

(** [showCode] and [showReasoning]. *)
Record state : Type := State {
  showCode : bool;
  showReasoning : bool
}.

Definition initial : state := State false false.

(** The three toggle buttons. *)
Inductive button : Type := Preview | Reasoning | Code.

Definition onClick (b : button) (s : state) : state :=
  match b with
  | Preview => State false false
  | Reasoning => State false true
  | Code => State true false
  end.

Definition isSelected (b : button) (s : state) : bool :=
  match b with
  | Preview => negb (showCode s) && negb (showReasoning s)
  | Reasoning => showReasoning s
  | Code => showCode s
  end.

(** What the component renders above the buttons. *)
Inductive pane : Type := EditorPane | ReasoningPane | PreviewPane.

Definition shown (s : state) : pane :=
  if showCode s then EditorPane
  else if showReasoning s then ReasoningPane
  else PreviewPane.

(** [output?.code || ''] *)
Definition htmlCode (output : option Home.output) : jsstring :=
  match output with
  | Some o =>
      match Home.code o with
      | Some c => c
      | None => []
      end
  | None => []
  end.

(** [onChange={(value) => onCodeChange(output.id, value || '')}] of the
    editor, [onCodeChange] being [handleCodeChange]. *)
Definition onChange (output : Home.output) (value : option jsstring)
  : Home.state -> Home.state :=
  Home.handleCodeChange (Home.id output)
    (match value with
     | Some v => v
     | None => []
     end).

End CodePreview.

(** ** More vocabulary of the proofs *)

(** The button that a sequence of clicks leaves selected. *)
Definition last_clicked (clicks : list CodePreview.button)
  : CodePreview.button :=
  default CodePreview.Preview (last clicks).

Definition pane_of (b : CodePreview.button) : CodePreview.pane :=
  match b with
  | CodePreview.Preview => CodePreview.PreviewPane
  | CodePreview.Reasoning => CodePreview.ReasoningPane
  | CodePreview.Code => CodePreview.EditorPane
  end.

(** The [j]-th request of a batch is rejected: [fetch] fails in the
    server-proxied page, the model call throws in the client-side page. *)
Definition request_rejects (w : page_world) (j : nat) : Prop :=
  match w with
  | ViaRoute world => world j = ProxyPage.NetworkError
  | Direct world => world j = ModelThrows
  end.

(** The call both [generateCodeFromImage] make for the inputs of a page. *)
Definition call_of (st : Home.state) : model_call :=
  ModelCall (finalPrompt (Home.prompt st) (Home.userInput st))
    (image_data (Home.imageBase64 st)).

Definition is_served (o : ProxyPage.fetch_outcome) : bool :=
  match o with
  | ProxyPage.Served _ => true
  | ProxyPage.NetworkError => false
  end.

Definition COMMA : code_unit := 44%N.

(** The part of a data URL in front of the comma. *)
Definition sample_data_url_header : jsstring := lit "data:image/png;base64".

(** ** Lemmas on strings *)

Section Strings.
Implicit Types (s t w : jsstring) (c : code_unit).

Lemma after_prefix_app w t : after_prefix w (w ++ t) = Some t.
Proof.
  induction w as [|c w IH]; simpl; [done|].
  by rewrite N.eqb_refl.
Qed.

Lemma after_prefix_Some w s t : after_prefix w s = Some t -> s = w ++ t.
Proof.
  revert s. induction w as [|c w IH]; intros s; simpl.
  - by intros [= ->].
  - destruct s as [|c' s]; [done|].
    destruct (N.eqb_spec c' c) as [->|]; [|done].
    intros H. by rewrite (IH _ H).
Qed.

Lemma after_prefix_None_iff w s :
  after_prefix w s = None <-> forall t, s <> w ++ t.
Proof.
  split.
  - intros H t ->. by rewrite after_prefix_app in H.
  - intros H. destruct (after_prefix w s) as [t|] eqn:E; [|done].
    by apply after_prefix_Some, H in E.
Qed.

Lemma cut_at_fence_Some s b a :
  cut_at_fence s = Some (b, a) -> s = b ++ FENCE ++ a.
Proof.
  revert b a. induction s as [|c s IH]; intros b a.
  - simpl. done.
  - cbn [cut_at_fence].
    destruct (after_prefix FENCE (c :: s)) as [t|] eqn:E.
    + intros [= <- <-]. by apply after_prefix_Some in E.
    + destruct (cut_at_fence s) as [[b' a']|]; [|done].
      intros [= <- <-]. by rewrite (IH b' a').
Qed.

(** No fence at all when the cut fails. *)
Lemma cut_at_fence_None s :
  cut_at_fence s = None -> forall b a, s <> b ++ FENCE ++ a.
Proof.
  induction s as [|c s IH]; intros H b a.
  - by destruct b.
  - cbn [cut_at_fence] in H.
    destruct (after_prefix FENCE (c :: s)) as [t|] eqn:E; [done|].
    destruct (cut_at_fence s) as [[b' a']|] eqn:E'; [done|].
    destruct b as [|c' b].
    + intros Heq. rewrite Heq in E. simpl app in E.
      change (after_prefix FENCE (FENCE ++ a) = None) in E.
      by rewrite after_prefix_app in E.
    + intros [= -> ->]. by eapply IH.
Qed.

(** The cut is at the first fence: no fence starts earlier. *)
Lemma cut_at_fence_first s b a :
  cut_at_fence s = Some (b, a) ->
  forall b' a', s = b' ++ FENCE ++ a' -> length b <= length b'.
Proof.
  revert b a. induction s as [|c s IH]; intros b a.
  - done.
  - cbn [cut_at_fence].
    destruct (after_prefix FENCE (c :: s)) as [t|] eqn:E.
    + intros [= <- <-] b' a' _. simpl. lia.
    + destruct (cut_at_fence s) as [[b1 a1]|] eqn:E1; [|done].
      intros [= <- <-] b' a' Heq.
      destruct b' as [|c' b'].
      * rewrite Heq in E. change (after_prefix FENCE (FENCE ++ a') = None) in E.
        by rewrite after_prefix_app in E.
      * injection Heq as -> ->. simpl. specialize (IH _ _ eq_refl _ _ eq_refl). lia.
Qed.

End Strings.

(** ** The matcher on the two regular expressions *)

Section Matcher.
Implicit Types (s t w : jsstring) (c : code_unit) (k : cont)
  (cs : list (option jsstring)).

Lemma any_char_true c : any_char c = true.
Proof. unfold any_char. by destruct (is_space c). Qed.

Lemma space_not_backtick c : is_space c = true -> N.eqb c BACKTICK = false.
Proof.
  intros H. destruct (N.eqb_spec c BACKTICK) as [->|]; [|done].
  by vm_compute in H.
Qed.

Lemma matcher_Word w k s cs :
  matcher (Word w) k (MState s cs) =
  match after_prefix w s with
  | Some t => k (MState t cs)
  | None => None
  end.
Proof.
  revert s. induction w as [|c w IH]; intros s; [done|].
  cbn [Word matcher after_prefix rest].
  destruct s as [|c' s]; [done|].
  destruct (N.eqb c' c); [|done].
  unfold advance. cbn [caps]. apply IH.
Qed.

Lemma repeat_lazy_any k fuel s cs :
  length s < fuel ->
  repeat_matcher (matcher (Class any_char)) false k fuel (MState s cs) =
  scan_lazy k cs s.
Proof.
  revert s. induction fuel as [|fuel IH]; intros s Hlen; [lia|].
  cbn [repeat_matcher].
  destruct s as [|c s].
  - cbn [scan_lazy matcher rest]. by destruct (k _).
  - cbn [scan_lazy matcher rest]. destruct (k _); [done|].
    rewrite any_char_true. unfold advance. cbn [rest caps length].
    destruct (Nat.ltb_spec (length s) (S (length s))); [|lia].
    apply IH. simpl in Hlen. lia.
Qed.

Lemma repeat_greedy_class p k fuel s cs :
  length s < fuel ->
  repeat_matcher (matcher (Class p)) true k fuel (MState s cs) =
  scan_greedy p k cs s.
Proof.
  revert s. induction fuel as [|fuel IH]; intros s Hlen; [lia|].
  cbn [repeat_matcher].
  destruct s as [|c s].
  - done.
  - cbn [scan_greedy matcher rest]. destruct (p c); [|done].
    unfold advance. cbn [rest caps length].
    destruct (Nat.ltb_spec (length s) (S (length s))); [|lia].
    rewrite IH; [done|]. simpl in Hlen. lia.
Qed.

Lemma scan_lazy_closing pre s cs :
  scan_lazy
    (fun y =>
       matcher (Word FENCE) Some
         (MState (rest y)
            (set_cap 1 (consumed (MState (pre ++ s) cs) y) (caps y))))
    cs s =
  captured cs (match cut_at_fence s with
               | Some (b, a) => Some (pre ++ b, a)
               | None => None
               end).
Proof.
  revert pre. induction s as [|c s IH]; intros pre.
  - done.
  - cbn [scan_lazy cut_at_fence]. rewrite matcher_Word. cbn [rest caps].
    destruct (after_prefix FENCE (c :: s)) as [t|] eqn:E.
    + unfold consumed, captured. cbn [rest].
      rewrite length_app, Nat.add_sub, take_app_length, app_nil_r. done.
    + replace (pre ++ c :: s) with ((pre ++ [c]) ++ s) by by rewrite <- app_assoc.
      rewrite IH. destruct (cut_at_fence s) as [[b a]|]; [|done].
      by rewrite <- app_assoc.
Qed.

Lemma matcher_closing s cs :
  matcher closing_re Some (MState s cs) = captured cs (cut_at_fence s).
Proof.
  change (matcher closing_re Some (MState s cs)) with
    (repeat_matcher (matcher (Class any_char)) false
       (fun y =>
          matcher (Word FENCE) Some
            (MState (rest y)
               (set_cap 1 (consumed (MState ([] ++ s) cs) y) (caps y))))
       (S (length s)) (MState s cs)).
  rewrite repeat_lazy_any by lia.
  etrans; [exact (scan_lazy_closing [] s cs)|]. by destruct (cut_at_fence s) as [[??]|].
Qed.

Lemma cut_at_fence_space c s :
  is_space c = true ->
  cut_at_fence (c :: s) =
  match cut_at_fence s with
  | Some (b, a) => Some (c :: b, a)
  | None => None
  end.
Proof.
  intros H. cbn [cut_at_fence]. unfold FENCE at 1. cbn [after_prefix].
  by rewrite (space_not_backtick c H).
Qed.

Lemma cut_at_fence_trimStart_None s :
  cut_at_fence (trimStart s) = None -> cut_at_fence s = None.
Proof.
  induction s as [|c s IH]; [done|].
  cbn [trimStart]. destruct (is_space c) eqn:E; [|done].
  intros H. rewrite cut_at_fence_space by done. by rewrite IH.
Qed.

Lemma scan_greedy_closing s cs :
  scan_greedy is_space (matcher closing_re Some) cs s =
  captured cs (cut_at_fence (trimStart s)).
Proof.
  induction s as [|c s IH].
  - cbn [scan_greedy trimStart]. apply matcher_closing.
  - cbn [scan_greedy trimStart]. destruct (is_space c) eqn:E.
    + rewrite IH. destruct (cut_at_fence (trimStart s)) as [[b a]|] eqn:E1.
      * done.
      * cbn [captured]. rewrite matcher_closing, cut_at_fence_space by done.
        by rewrite (cut_at_fence_trimStart_None s E1).
    + apply matcher_closing.
Qed.

Lemma matcher_body s cs :
  matcher body_re Some (MState s cs) = captured cs (cut_at_fence (trimStart s)).
Proof.
  change (matcher body_re Some (MState s cs)) with
    (repeat_matcher (matcher (Class is_space)) true (matcher closing_re Some)
       (S (length s)) (MState s cs)).
  rewrite repeat_greedy_class by lia. apply scan_greedy_closing.
Qed.

End Matcher.

Section Tags.
Implicit Types (s t w : jsstring) (c : code_unit) (k : cont)
  (cs : list (option jsstring)).

Lemma cut_at_fence_tail_None c s :
  cut_at_fence (c :: s) = None -> cut_at_fence s = None.
Proof.
  cbn [cut_at_fence]. destruct (after_prefix FENCE (c :: s)); [done|].
  by destruct (cut_at_fence s) as [[??]|].
Qed.

Lemma cut_at_fence_None_trimStart s :
  cut_at_fence s = None -> cut_at_fence (trimStart s) = None.
Proof.
  induction s as [|c s IH]; [done|].
  intros H. cbn [trimStart]. destruct (is_space c); [|done].
  by apply IH, (cut_at_fence_tail_None c).
Qed.

Lemma cut_at_fence_word w t :
  no_backtick w ->
  cut_at_fence (w ++ t) =
  match cut_at_fence t with
  | Some (b, a) => Some (w ++ b, a)
  | None => None
  end.
Proof.
  induction 1 as [|c w Hc _ IH]; simpl app.
  - by destruct (cut_at_fence t) as [[??]|].
  - cbn [cut_at_fence]. unfold FENCE at 1. cbn [after_prefix].
    rewrite Hc, IH. by destruct (cut_at_fence t) as [[??]|].
Qed.

Lemma body_None_word w t cs :
  no_backtick w ->
  matcher body_re Some (MState t cs) = None ->
  matcher body_re Some (MState (w ++ t) cs) = None.
Proof.
  intros Hw. rewrite !matcher_body. intros H.
  assert (cut_at_fence (trimStart t) = None) as H1
    by by destruct (cut_at_fence (trimStart t)) as [[??]|].
  apply cut_at_fence_trimStart_None in H1.
  rewrite cut_at_fence_None_trimStart; [done|].
  by rewrite cut_at_fence_word, H1.
Qed.

Lemma no_backtick_lit_html : no_backtick (lit "html").
Proof. by repeat constructor. Qed.

Lemma no_backtick_lit_javascript : no_backtick (lit "javascript").
Proof. by repeat constructor. Qed.

Lemma no_backtick_lit_js : no_backtick (lit "js").
Proof. by repeat constructor. Qed.

Lemma matcher_tagged_server t cs :
  matcher (Seq (Opt (Word (lit "html"))) body_re) Some (MState t cs) =
  captured cs (cut_at_fence (trimStart (drop_tag (own_tags ServerRoute) t))).
Proof.
  change (matcher (Seq (Opt (Word (lit "html"))) body_re) Some (MState t cs))
    with (match matcher (Word (lit "html")) (matcher body_re Some) (MState t cs)
          with
          | Some z => Some z
          | None => matcher body_re Some (MState t cs)
          end).
  rewrite matcher_Word. cbn [own_tags drop_tag].
  destruct (after_prefix (lit "html") t) as [t'|] eqn:E.
  - destruct (matcher body_re Some (MState t' cs)) eqn:E1.
    + by rewrite <- E1, matcher_body.
    + apply after_prefix_Some in E as ->.
      rewrite (body_None_word _ _ _ no_backtick_lit_html E1).
      by rewrite <- E1, matcher_body.
  - apply matcher_body.
Qed.

Lemma matcher_tagged_client t cs :
  matcher (Seq (Opt (Alt (Word (lit "javascript")) (Word (lit "js")))) body_re)
    Some (MState t cs) =
  captured cs (cut_at_fence (trimStart (drop_tag (own_tags ClientApp) t))).
Proof.
  change (matcher _ Some (MState t cs))
    with (match
            match matcher (Word (lit "javascript")) (matcher body_re Some)
                    (MState t cs)
            with
            | Some z => Some z
            | None => matcher (Word (lit "js")) (matcher body_re Some)
                        (MState t cs)
            end
          with
          | Some z => Some z
          | None => matcher body_re Some (MState t cs)
          end).
  rewrite !matcher_Word. cbn [own_tags drop_tag].
  destruct (after_prefix (lit "javascript") t) as [t'|] eqn:E.
  - destruct (matcher body_re Some (MState t' cs)) eqn:E1.
    + by rewrite <- E1, matcher_body.
    + apply after_prefix_Some in E as ->.
      change (after_prefix (lit "js") (lit "javascript" ++ t')) with (@None jsstring).
      rewrite (body_None_word _ _ _ no_backtick_lit_javascript E1).
      by rewrite <- E1, matcher_body.
  - destruct (after_prefix (lit "js") t) as [t'|] eqn:E'.
    + destruct (matcher body_re Some (MState t' cs)) eqn:E1.
      * by rewrite <- E1, matcher_body.
      * apply after_prefix_Some in E' as ->.
        rewrite (body_None_word _ _ _ no_backtick_lit_js E1).
        by rewrite <- E1, matcher_body.
    + apply matcher_body.
Qed.

Lemma matcher_regex v s cs :
  matcher (regex_of v) Some (MState s cs) = captured cs (block_at v s).
Proof.
  unfold block_at. destruct v.
  - change (matcher (regex_of ServerRoute) Some (MState s cs))
      with (matcher (Word FENCE)
              (matcher (Seq (Opt (Word (lit "html"))) body_re) Some)
              (MState s cs)).
    rewrite matcher_Word. destruct (after_prefix FENCE s); [|done].
    apply matcher_tagged_server.
  - change (matcher (regex_of ClientApp) Some (MState s cs))
      with (matcher (Word FENCE)
              (matcher
                 (Seq (Opt (Alt (Word (lit "javascript")) (Word (lit "js"))))
                      body_re) Some)
              (MState s cs)).
    rewrite matcher_Word. destruct (after_prefix FENCE s); [|done].
    apply matcher_tagged_client.
Qed.

Lemma exec_from_first_block v s i :
  match exec_from (regex_of v) s i with
  | Some m => group m 1 = first_block v s /\ is_Some (first_block v s)
  | None => first_block v s = None
  end.
Proof.
  revert i. induction s as [|c s IH]; intros i.
  - cbn [exec_from first_block]. rewrite matcher_regex.
    destruct (block_at v []) as [[b a]|]; [|done]. by eauto.
  - cbn [exec_from first_block]. rewrite matcher_regex.
    destruct (block_at v (c :: s)) as [[b a]|]; [by eauto|].
    apply IH.
Qed.

(** The extractors in terms of the first block. *)
Lemma extractedCode_first_block v s :
  extractedCode v s =
  Some (match first_block v s with
        | Some b => trim b
        | None => fallback v s
        end).
Proof.
  pose proof (exec_from_first_block v s 0) as H.
  destruct v; unfold extractedCode, Server.extractedCode,
    Client.extractedCode, exec;
    change Server.regex with (regex_of ServerRoute);
    change Client.regex with (regex_of ClientApp).
  - destruct (exec_from _ s 0) as [m|].
    + destruct H as [-> [b ->]]. done.
    + by rewrite H.
  - destruct (exec_from _ s 0) as [m|].
    + destruct H as [-> [b ->]]. done.
    + by rewrite H.
Qed.

End Tags.

(** ** Trimming *)

Section Trim.
Implicit Types (s t w : jsstring) (c : code_unit).

Lemma trimStart_suffix s : exists x, s = x ++ trimStart s.
Proof.
  induction s as [|c s [x IH]]; [by exists []|].
  cbn [trimStart]. destruct (is_space c).
  - exists (c :: x). simpl. by rewrite <- IH.
  - by exists [].
Qed.

Lemma trimStart_nil_iff s : trimStart s = [] <-> forallb is_space s = true.
Proof.
  induction s as [|c s IH]; [done|].
  cbn [trimStart forallb]. destruct (is_space c); simpl; [done|].
  split; done.
Qed.

Lemma trimStart_idemp s : trimStart (trimStart s) = trimStart s.
Proof.
  induction s as [|c s IH]; [done|].
  cbn [trimStart]. destruct (is_space c) eqn:E; [done|].
  cbn [trimStart]. by rewrite E.
Qed.

Lemma trim_trimStart s : trim (trimStart s) = trim s.
Proof. unfold trim. by rewrite trimStart_idemp. Qed.

Lemma trimStart_space c s : is_space c = true -> trimStart (c :: s) = trimStart s.
Proof. intros H. cbn [trimStart]. by rewrite H. Qed.

Lemma trimStart_nonspace c s : is_space c = false -> trimStart (c :: s) = c :: s.
Proof. intros H. cbn [trimStart]. by rewrite H. Qed.

(** Leading white space never reaches past a character that is none. *)
Lemma trimStart_app_nonspace s c t :
  is_space c = false -> trimStart (s ++ c :: t) = trimStart s ++ c :: t.
Proof.
  intros H. induction s as [|c' s IH]; simpl app.
  - by rewrite trimStart_nonspace.
  - cbn [trimStart]. destruct (is_space c'); [done|]. done.
Qed.

Lemma forallb_is_space_app s t :
  forallb is_space (s ++ t) = forallb is_space s && forallb is_space t.
Proof. apply forallb_app. Qed.

Lemma forallb_is_space_rev s : forallb is_space (rev s) = forallb is_space s.
Proof.
  induction s as [|c s IH]; [done|].
  simpl. rewrite forallb_app, IH. simpl. rewrite andb_true_r. apply andb_comm.
Qed.

Lemma trim_nil_iff s : trim s = [] <-> forallb is_space s = true.
Proof.
  unfold trim, trimEnd. split.
  - intros H. apply (f_equal (@rev _)) in H. rewrite rev_involutive in H.
    simpl in H. apply trimStart_nil_iff in H.
    rewrite forallb_is_space_rev in H.
    destruct (trimStart s) as [|c r] eqn:E; [by apply trimStart_nil_iff|].
    exfalso. revert E H. clear. induction s as [|c' s IH]; [done|].
    cbn [trimStart]. destruct (is_space c') eqn:E'; [done|].
    intros [= <- <-]. simpl. by rewrite E'.
  - intros H. apply trimStart_nil_iff in H. by rewrite H.
Qed.

Lemma truthy_trim s : truthy (trim s) = negb (forallb is_space s).
Proof.
  destruct (forallb is_space s) eqn:E.
  - apply trim_nil_iff in E. by rewrite E.
  - destruct (trim s) eqn:E'; [|done].
    apply trim_nil_iff in E'. congruence.
Qed.

(** Trailing white space never reaches past a word put in front. *)
Lemma trimEnd_word_app w s :
  w <> [] -> Forall (fun c => is_space c = false) w ->
  trimEnd (w ++ s) = w ++ trimEnd s.
Proof.
  intros Hne Hw. unfold trimEnd. rewrite rev_app_distr.
  destruct (rev w) as [|c r] eqn:E.
  - apply (f_equal (@rev _)) in E. rewrite rev_involutive in E. done.
  - assert (is_space c = false) as Hc.
    { apply Forall_rev in Hw. rewrite E in Hw. by inversion Hw. }
    rewrite trimStart_app_nonspace by done.
    rewrite rev_app_distr. rewrite <- E, rev_involutive. done.
Qed.

End Trim.

(** ** The first block of a decomposed response *)

Section Blocks.
Implicit Types (s t w pre inner post : jsstring) (c : code_unit) (v : variant).

Lemma after_prefix_app_None w s r :
  length w <= length s -> after_prefix w s = None -> after_prefix w (s ++ r) = None.
Proof.
  revert s. induction w as [|c w IH]; intros s Hlen; [done|].
  destruct s as [|c' s]; [simpl in Hlen; lia|].
  simpl. destruct (N.eqb c' c); [|done].
  apply IH. simpl in Hlen. lia.
Qed.

(** When the first fence of [s ++ FENCE] is the one at its end, it is also
    the first fence of [s ++ FENCE ++ r]. *)
Lemma cut_at_fence_extend s r :
  cut_at_fence (s ++ FENCE) = Some (s, []) ->
  cut_at_fence (s ++ FENCE ++ r) = Some (s, r).
Proof.
  induction s as [|c s IH]; intros H.
  - done.
  - rewrite <- app_comm_cons in *. cbn [cut_at_fence] in *.
    destruct (after_prefix FENCE (c :: s ++ FENCE)) as [t|] eqn:E.
    { by injection H. }
    rewrite (app_assoc s FENCE r), (app_comm_cons (s ++ FENCE) r c).
    rewrite after_prefix_app_None;
      [|rewrite length_cons, length_app; unfold FENCE; simpl; lia|done].
    rewrite <- app_assoc.
    destruct (cut_at_fence (s ++ FENCE)) as [[b a]|] eqn:E1; [|done].
    injection H as -> ->. by rewrite IH.
Qed.

(** No match starts before the first fence. *)
Lemma first_block_skip v pre r :
  cut_at_fence (pre ++ FENCE) = Some (pre, []) ->
  first_block v (pre ++ FENCE ++ r) = first_block v (FENCE ++ r).
Proof.
  induction pre as [|c pre IH]; intros H; [done|].
  rewrite <- app_comm_cons in *. cbn [cut_at_fence] in H.
  destruct (after_prefix FENCE (c :: pre ++ FENCE)) as [t|] eqn:E.
  { by injection H. }
  destruct (cut_at_fence (pre ++ FENCE)) as [[b a]|] eqn:E1; [|done].
  injection H as -> ->.
  cbn [first_block]. unfold block_at at 1.
  rewrite (app_assoc pre FENCE r), (app_comm_cons (pre ++ FENCE) r c).
  rewrite after_prefix_app_None;
    [|rewrite length_cons, length_app; unfold FENCE; simpl; lia|done].
  rewrite <- app_assoc. by apply IH.
Qed.

Lemma trimStart_app_fence s r :
  trimStart (s ++ FENCE ++ r) = trimStart s ++ FENCE ++ r.
Proof. apply trimStart_app_nonspace. done. Qed.

Lemma cut_at_fence_trimStart_end s :
  cut_at_fence (s ++ FENCE) = Some (s, []) ->
  cut_at_fence (trimStart s ++ FENCE) = Some (trimStart s, []).
Proof.
  induction s as [|c s IH]; [done|].
  cbn [trimStart]. destruct (is_space c) eqn:E; [|done].
  rewrite <- app_comm_cons, cut_at_fence_space by done.
  destruct (cut_at_fence (s ++ FENCE)) as [[b a]|]; [|done].
  intros [= -> ->]. by apply IH.
Qed.

(** A word without backticks that starts [inner ++ FENCE ++ post] starts
    [inner]. *)
Lemma after_prefix_fence_prefix w inner post t :
  no_backtick w ->
  after_prefix w (inner ++ FENCE ++ post) = Some t -> w `prefix_of` inner.
Proof.
  intros Hw. revert inner. induction Hw as [|c w Hc _ IH]; intros inner.
  - intros _. apply prefix_nil.
  - destruct inner as [|c' inner].
    + change ([] ++ FENCE ++ post) with (BACKTICK :: BACKTICK :: BACKTICK :: post).
      cbn [after_prefix].
      destruct (N.eqb_spec BACKTICK c) as [<-|]; [|done].
      by rewrite N.eqb_refl in Hc.
    + rewrite <- app_comm_cons. cbn [after_prefix].
      destruct (N.eqb_spec c' c) as [->|]; [|done].
      intros H. by apply prefix_cons, IH.
Qed.

Lemma no_backtick_own_tags v w : w ∈ own_tags v -> no_backtick w.
Proof.
  destruct v; cbn [own_tags]; rewrite ?elem_of_cons, elem_of_nil.
  - intros [->|[]]. apply no_backtick_lit_html.
  - intros [->|[->|[]]];
      [apply no_backtick_lit_javascript | apply no_backtick_lit_js].
Qed.

(** Which tag is dropped in front of a decomposed body. *)
Lemma drop_tag_decomposed v tag inner post :
  tag ∈ own_tags v \/
    (tag = [] /\ forall w, w ∈ own_tags v -> ~ w `prefix_of` inner) ->
  drop_tag (own_tags v) (tag ++ inner ++ FENCE ++ post) =
  inner ++ FENCE ++ post.
Proof.
  intros [Hin|[-> Hno]].
  - destruct v; cbn [own_tags] in *; rewrite ?elem_of_cons, elem_of_nil in Hin.
    + destruct Hin as [->|[]]. cbn [drop_tag]. by rewrite after_prefix_app.
    + destruct Hin as [->|[->|[]]]; cbn [drop_tag].
      * by rewrite after_prefix_app.
      * change (after_prefix (lit "javascript") (lit "js" ++ _))
          with (@None jsstring).
        by rewrite after_prefix_app.
  - simpl app.
    assert (forall tags, (forall w, w ∈ tags -> w ∈ own_tags v) ->
              drop_tag tags (inner ++ FENCE ++ post) = inner ++ FENCE ++ post)
      as Hall; [|by apply Hall].
    induction tags as [|w tags IH]; intros Hsub; [done|].
    cbn [drop_tag].
    destruct (after_prefix w (inner ++ FENCE ++ post)) as [t|] eqn:E.
    + exfalso. apply (Hno w); [apply Hsub; left|].
      eapply after_prefix_fence_prefix; [|done].
      apply (no_backtick_own_tags v), Hsub. left.
    + apply IH. intros w' Hw'. apply Hsub. by right.
Qed.

Lemma first_block_unfold v s :
  first_block v s =
  match block_at v s with
  | Some (b, _) => Some b
  | None =>
      match s with
      | [] => None
      | _ :: t => first_block v t
      end
  end.
Proof. by destruct s. Qed.

(** The extracted code of a response cut at its first block. *)
Lemma extractedCode_decomposed v pre tag inner post :
  cut_at_fence (pre ++ FENCE) = Some (pre, []) ->
  tag ∈ own_tags v \/
    (tag = [] /\ forall w, w ∈ own_tags v -> ~ w `prefix_of` inner) ->
  cut_at_fence (inner ++ FENCE) = Some (inner, []) ->
  extractedCode v (pre ++ FENCE ++ tag ++ inner ++ FENCE ++ post) =
  Some (trim inner).
Proof.
  intros Hpre Htag Hinner.
  rewrite extractedCode_first_block, first_block_skip by done.
  rewrite first_block_unfold. unfold block_at. rewrite after_prefix_app.
  rewrite drop_tag_decomposed by done.
  rewrite trimStart_app_fence.
  rewrite (cut_at_fence_extend _ _ (cut_at_fence_trimStart_end _ Hinner)).
  by rewrite trim_trimStart.
Qed.

(** A match means a block. *)
Lemma first_block_has_block v s b : first_block v s = Some b -> has_block s.
Proof.
  induction s as [|c s IH].
  - done.
  - cbn [first_block]. destruct (block_at v (c :: s)) as [[b' a]|] eqn:E.
    + intros _. unfold block_at in E.
      destruct (after_prefix FENCE (c :: s)) as [t|] eqn:E1; [|done].
      apply after_prefix_Some in E1. apply cut_at_fence_Some in E.
      destruct (trimStart_suffix (drop_tag (own_tags v) t)) as [x Hx].
      assert (exists y, t = y ++ drop_tag (own_tags v) t) as [y Hy].
      { clear. induction (own_tags v) as [|w tags IH]; [by exists []|].
        cbn [drop_tag]. destruct (after_prefix w t) as [t'|] eqn:E; [|done].
        exists w. by apply after_prefix_Some. }
      exists [], (y ++ x ++ b'), a. rewrite E1. simpl app.
      rewrite Hy at 1. rewrite Hx at 1. rewrite E.
      by rewrite <- !app_assoc.
    + intros H. destruct (IH H) as (pre & mid & post & ->).
      by exists (c :: pre), mid, post.
Qed.

End Blocks.

(** ** Promise.all *)

Section PromiseAllFacts.
Context {A : Type}.
Implicit Types (vals : list A) (order : list nat)
  (values : list (option A)) (outcomes : list (settled A)).

(** Every promise fulfils: whatever the order of completion, the slots end
    up holding the values in the order of the promises. *)
Lemma promise_all_loop_fulfilled vals order values :
  order <> [] ->
  NoDup order ->
  (forall i, i ∈ order -> i < length vals) ->
  length values = length vals ->
  (forall j, j ∉ order -> values !! j = (Some <$> vals) !! j) ->
  promise_all_loop (Fulfilled <$> vals) order values (length order) =
  Some (Fulfilled (Some <$> vals)).
Proof.
  revert values. induction order as [|i order IH]; intros values Hne Hnd Hlt Hlen Hinv;
    [done|].
  cbn [promise_all_loop].
  assert (i < length vals) as Hi by (apply Hlt; left).
  destruct (lookup_lt_is_Some_2 vals i Hi) as [x Hx].
  rewrite list_lookup_fmap, Hx. cbn [fmap option_fmap option_map].
  apply NoDup_cons in Hnd as [Hni Hnd].
  assert (forall j, j ∉ order ->
            <[i:=Some x]> values !! j = (Some <$> vals) !! j) as Hinv'.
  { intros j Hj. destruct (decide (i = j)) as [<-|Hij].
    - rewrite list_lookup_insert_eq by lia. by rewrite list_lookup_fmap, Hx.
    - rewrite list_lookup_insert_ne by done. apply Hinv.
      rewrite not_elem_of_cons. split; [congruence|done]. }
  replace (length (i :: order) - 1) with (length order) by (simpl; lia).
  destruct order as [|i' order'].
  - cbn [length]. do 2 f_equal. apply list_eq. intros j. apply Hinv'.
    apply not_elem_of_nil.
  - cbn [length]. apply IH; [done|done| |by rewrite length_insert|done].
    intros j Hj. apply Hlt. by right.
Qed.

Lemma promise_all_fulfilled vals order :
  order ≡ₚ seq 0 (length vals) ->
  promise_all (Fulfilled <$> vals) order = Some (Fulfilled (Some <$> vals)).
Proof.
  intros Hperm. unfold promise_all.
  assert (length order = length vals) as Hlo
    by by rewrite Hperm, length_seq.
  destruct (Fulfilled <$> vals) as [|y ys] eqn:E.
  { by apply fmap_nil_inv in E as ->. }
  rewrite <- E, length_fmap, <- Hlo.
  apply promise_all_loop_fulfilled.
  - intros ->. by destruct vals.
  - rewrite Hperm. apply NoDup_seq.
  - intros i. rewrite Hperm, elem_of_seq. lia.
  - by rewrite length_replicate.
  - intros j Hj. rewrite Hperm, elem_of_seq in Hj.
    rewrite (proj1 (lookup_replicate_None _ _ _)) by lia.
    rewrite list_lookup_fmap, lookup_ge_None_2 by lia. done.
Qed.

(** A rejection among the promises rejects the whole, whatever the order of
    completion. *)
Lemma promise_all_loop_rejected outcomes order values j :
  (forall i, i ∈ order -> i < length outcomes) ->
  j ∈ order ->
  outcomes !! j = Some Rejected ->
  promise_all_loop outcomes order values (length order) = Some Rejected.
Proof.
  revert values. induction order as [|i order IH]; intros values Hlt Hj Hrej.
  - by apply elem_of_nil in Hj.
  - cbn [promise_all_loop].
    assert (i < length outcomes) as Hi by (apply Hlt; left).
    destruct (lookup_lt_is_Some_2 outcomes i Hi) as [[x|] Hx]; rewrite Hx;
      [|done].
    apply elem_of_cons in Hj as [->|Hj]; [congruence|].
    replace (length (i :: order) - 1) with (length order) by (simpl; lia).
    destruct order as [|i' order']; [by apply elem_of_nil in Hj|].
    cbn [length]. apply IH; [|done..].
    intros i'' Hi'. apply Hlt. by right.
Qed.

Lemma promise_all_rejected outcomes order j :
  order ≡ₚ seq 0 (length outcomes) ->
  outcomes !! j = Some Rejected ->
  promise_all outcomes order = Some Rejected.
Proof.
  intros Hperm Hrej. unfold promise_all.
  destruct outcomes as [|y ys] eqn:E; [done|]. rewrite <- E in *.
  assert (length order = length outcomes) as Hlo
    by by rewrite Hperm, length_seq.
  rewrite <- Hlo. apply (promise_all_loop_rejected _ _ _ j); [| |done].
  - intros i. rewrite Hperm, elem_of_seq. lia.
  - rewrite Hperm, elem_of_seq. apply lookup_lt_Some in Hrej. lia.
Qed.

(** Nothing has settled yet: the whole is pending. *)
Lemma promise_all_pending outcomes :
  outcomes <> [] -> promise_all outcomes [] = None.
Proof. by destruct outcomes. Qed.

End PromiseAllFacts.

(** ** The pages *)

Section Pages.
Import Home.
Implicit Types (st : state) (order : list nat).

Lemma generateCodeFromImage_eq v image p u w :
  generateCodeFromImage v image p u w =
  ([ModelCall (finalPrompt p u) (image_data image)],
   match w with
   | ModelText r =>
       Fulfilled (Generation r (match first_block v r with
                                | Some b => trim b
                                | None => fallback v r
                                end))
   | ModelThrows => Rejected
   end).
Proof.
  destruct v; unfold generateCodeFromImage, Server.generateCodeFromImage,
    Client.generateCodeFromImage; destruct w as [r|]; try done.
  - by rewrite (extractedCode_first_block ServerRoute).
  - by rewrite (extractedCode_first_block ClientApp).
Qed.

Lemma map_results_Some {R} (co fo : R -> option jsstring) k (rs : list R) :
  map_results co fo k (Some <$> rs) =
  Some (imap (fun i r => Output (k + i + 1) (co r) (fo r)) rs).
Proof.
  revert k. induction rs as [|r rs IH]; intros k; [done|].
  cbn [fmap list_fmap map_results imap]. fold (@fmap list _ _ _ (@Some R) rs).
  rewrite IH. do 2 f_equal; [f_equal; lia|].
  apply imap_ext. intros i x _. simpl. f_equal. lia.
Qed.

Lemma outputs_of_ids gens :
  id <$> outputs_of gens = seq 1 (length gens).
Proof.
  unfold outputs_of.
  assert (forall k, id <$> imap (fun i g => Output (k + i + 1) (Some (gen_code g))
                     (Some (gen_fullResponse g))) gens = seq (k + 1) (length gens))
    as H; [|apply (H 0)].
  induction gens as [|g gens IH]; intros k; [done|].
  cbn [imap fmap list_fmap length seq id].
  fold (@fmap list _ _ _ id). f_equal; [lia|].
  replace (S (k + 1)) with (S k + 1) by lia.
  rewrite <- (IH (S k)). f_equal. apply imap_ext. intros i x _. simpl.
  f_equal. lia.
Qed.

Lemma submit_Some st :
  truthy (imageBase64 st) = true ->
  submit st = Some (State (imageBase64 st) [] true true (concurrentRequests st)
                      (prompt st) (userInput st) (showErrorModal st)).
Proof. intros H. unfold submit. by rewrite H. Qed.

Lemma submit_None st : truthy (imageBase64 st) = false -> submit st = None.
Proof. intros H. unfold submit. by rewrite H. Qed.

Lemma length_client_requests st world :
  length (ClientPage.requests st world) = concurrentRequests st.
Proof. unfold ClientPage.requests. by rewrite length_map, length_seq. Qed.

Lemma length_proxy_requests st world :
  length (ProxyPage.requests st world) = concurrentRequests st.
Proof. unfold ProxyPage.requests. by rewrite length_map, length_seq. Qed.

(** A batch of the client-side page whose requests all succeed. *)
Lemma client_batch_succeeds st world order gens :
  truthy (imageBase64 st) = true ->
  snd <$> ClientPage.requests st world = Fulfilled <$> gens ->
  order ≡ₚ seq 0 (concurrentRequests st) ->
  fst (ClientPage.generateCode st world order) =
  State (imageBase64 st) (outputs_of gens) false true (concurrentRequests st)
    (prompt st) (userInput st) (showErrorModal st).
Proof.
  intros Himg Hall Hperm. unfold ClientPage.generateCode.
  rewrite submit_Some by done.
  change (map snd ?l) with (snd <$> l). rewrite Hall.
  assert (length gens = concurrentRequests st) as Hlen.
  { rewrite <- (length_client_requests st world).
    rewrite <- (length_fmap snd), Hall. by rewrite length_fmap. }
  rewrite promise_all_fulfilled by by rewrite Hlen.
  cbn [fst settle]. rewrite map_results_Some. done.
Qed.

(** A batch of the server-proxied page whose requests all succeed. *)
Lemma proxy_batch_succeeds st world order gens :
  truthy (imageBase64 st) = true ->
  snd <$> ProxyPage.requests st world =
    (fun g => Fulfilled (Api.BodyGeneration g)) <$> gens ->
  order ≡ₚ seq 0 (concurrentRequests st) ->
  fst (ProxyPage.generateCode st world order) =
  State (imageBase64 st) (outputs_of gens) false true (concurrentRequests st)
    (prompt st) (userInput st) (showErrorModal st).
Proof.
  intros Himg Hall Hperm. unfold ProxyPage.generateCode.
  rewrite submit_Some by done.
  change (map snd ?l) with (snd <$> l). rewrite Hall.
  assert (length gens = concurrentRequests st) as Hlen.
  { rewrite <- (length_proxy_requests st world).
    rewrite <- (length_fmap snd), Hall. by rewrite length_fmap. }
  rewrite (list_fmap_compose Api.BodyGeneration Fulfilled).
  rewrite promise_all_fulfilled by by rewrite length_fmap, Hlen.
  cbn [fst settle]. rewrite map_results_Some.
  unfold outputs_of. rewrite imap_fmap. done.
Qed.

(** A rejected request fails the batch, in both pages. *)
Lemma client_batch_rejected st world order j :
  truthy (imageBase64 st) = true ->
  (snd <$> ClientPage.requests st world) !! j = Some Rejected ->
  order ≡ₚ seq 0 (concurrentRequests st) ->
  fst (ClientPage.generateCode st world order) = failed st.
Proof.
  intros Himg Hrej Hperm. unfold ClientPage.generateCode.
  rewrite submit_Some by done.
  change (map snd ?l) with (snd <$> l).
  rewrite (promise_all_rejected _ _ j); [done| |done].
  by rewrite length_fmap, length_client_requests.
Qed.

Lemma proxy_batch_rejected st world order j :
  truthy (imageBase64 st) = true ->
  (snd <$> ProxyPage.requests st world) !! j = Some Rejected ->
  order ≡ₚ seq 0 (concurrentRequests st) ->
  fst (ProxyPage.generateCode st world order) = failed st.
Proof.
  intros Himg Hrej Hperm. unfold ProxyPage.generateCode.
  rewrite submit_Some by done.
  change (map snd ?l) with (snd <$> l).
  rewrite (promise_all_rejected _ _ j); [done| |done].
  by rewrite length_fmap, length_proxy_requests.
Qed.

(** In the client-side page a model call that throws rejects its request. *)
Lemma client_request_throws st world j :
  j < concurrentRequests st -> world j = ModelThrows ->
  (snd <$> ClientPage.requests st world) !! j = Some Rejected.
Proof.
  intros Hj Hw. unfold ClientPage.requests, ClientPage.request.
  rewrite list_lookup_fmap.
  change (map ?f ?l) with (f <$> l). rewrite list_lookup_fmap.
  rewrite lookup_seq_lt by done. cbn [fmap option_fmap option_map Nat.add].
  rewrite Hw. change Client.generateCodeFromImage with (generateCodeFromImage ClientApp).
  by rewrite generateCodeFromImage_eq.
Qed.

(** In the server-proxied page the route answers a model call that throws:
    the request is fulfilled, with a body that is only a message. *)
Lemma proxy_request_served st world j w :
  j < concurrentRequests st -> world j = ProxyPage.Served w ->
  exists b, (snd <$> ProxyPage.requests st world) !! j = Some (Fulfilled b).
Proof.
  intros Hj Hw. unfold ProxyPage.requests, ProxyPage.request.
  rewrite list_lookup_fmap.
  change (map ?f ?l) with (f <$> l). rewrite list_lookup_fmap.
  rewrite lookup_seq_lt by done. cbn [fmap option_fmap option_map Nat.add].
  rewrite Hw. destruct (Api.handler _ w) as [calls res]. by eexists.
Qed.

End Pages.

(** ** Responses with and without a block *)

Section HasBlock.
Implicit Types (s t w pre inner post : jsstring) (v : variant).

Lemma has_block_iff s : has_block s <-> has_blockb s = true.
Proof.
  unfold has_blockb. split.
  - intros (pre & mid & post & Hs).
    destruct (cut_at_fence s) as [[b a]|] eqn:E.
    + pose proof (cut_at_fence_first _ _ _ E pre (mid ++ FENCE ++ post) Hs) as Hle.
      apply cut_at_fence_Some in E.
      assert (a = drop (length b + 3) (pre ++ FENCE ++ mid) ++ FENCE ++ post)
        as Ha.
      { rewrite <- drop_app_le
          by (rewrite !length_app; unfold FENCE; simpl; lia).
        rewrite <- !app_assoc, <- Hs, E.
        rewrite <- drop_drop, drop_app_length. done. }
      destruct (cut_at_fence a) eqn:E'; [done|].
      by eapply cut_at_fence_None in E'.
    + by eapply cut_at_fence_None in E.
  - destruct (cut_at_fence s) as [[b a]|] eqn:E; [|done].
    destruct (cut_at_fence a) as [[b' a']|] eqn:E'; [|done].
    intros _. apply cut_at_fence_Some in E, E'. subst.
    by exists b, b', a'.
Qed.

Lemma first_block_None_no_block v s : ~ has_block s -> first_block v s = None.
Proof.
  intros H. destruct (first_block v s) eqn:E; [|done].
  by apply first_block_has_block in E.
Qed.

(** The first fence of [s ++ FENCE ++ r], when it is the one after [s], is
    the first fence of [s ++ FENCE]. *)
Lemma cut_at_fence_restrict s r :
  cut_at_fence (s ++ FENCE ++ r) = Some (s, r) ->
  cut_at_fence (s ++ FENCE) = Some (s, []).
Proof.
  induction s as [|c s IH]; [done|].
  rewrite <- !app_comm_cons. cbn [cut_at_fence].
  destruct (after_prefix FENCE (c :: s ++ FENCE ++ r)) as [t|] eqn:E; [done|].
  destruct (after_prefix FENCE (c :: s ++ FENCE)) as [t|] eqn:E1.
  { apply after_prefix_Some in E1.
    rewrite (app_assoc s FENCE r), (app_comm_cons (s ++ FENCE) r c), E1 in E.
    by rewrite <- app_assoc, after_prefix_app in E. }
  destruct (cut_at_fence (s ++ FENCE ++ r)) as [[b a]|] eqn:E2; [|done].
  intros [= -> ->]. by rewrite IH.
Qed.

Lemma cut_at_fence_app_fence s b a :
  cut_at_fence s = Some (b, a) -> cut_at_fence (b ++ FENCE) = Some (b, []).
Proof.
  intros H. pose proof (cut_at_fence_Some _ _ _ H) as ->.
  by apply cut_at_fence_restrict in H.
Qed.

Lemma drop_tag_split tags t :
  (forall w, w ∈ tags -> no_backtick w) ->
  exists tag,
    t = tag ++ drop_tag tags t /\ no_backtick tag /\
    (tag ∈ tags \/ (tag = [] /\ forall w, w ∈ tags -> after_prefix w t = None)).
Proof.
  induction tags as [|w tags IH]; intros Hnb.
  - exists []. split; [done|]. split; [constructor|]. right. split; [done|].
    intros w Hw. by apply elem_of_nil in Hw.
  - cbn [drop_tag]. destruct (after_prefix w t) as [t'|] eqn:E.
    + exists w. split; [by apply after_prefix_Some|].
      split; [apply Hnb; left|]. left. left.
    + destruct IH as (tag & Ht & Hn & Hc).
      { intros w' Hw'. apply Hnb. by right. }
      exists tag. split; [done|]. split; [done|].
      destruct Hc as [Hin|[-> Hall]]; [left; by right|].
      right. split; [done|]. intros w' [->|Hw']%elem_of_cons; [done|by apply Hall].
Qed.

(** Every response that contains a block is cut at its first block in the
    way [extractedCode_decomposed] expects. *)
Lemma has_block_decomposed v s :
  has_block s ->
  exists pre tag inner post,
    s = pre ++ FENCE ++ tag ++ inner ++ FENCE ++ post /\
    cut_at_fence (pre ++ FENCE) = Some (pre, []) /\
    (tag ∈ own_tags v \/
       (tag = [] /\ forall w, w ∈ own_tags v -> ~ w `prefix_of` inner)) /\
    cut_at_fence (inner ++ FENCE) = Some (inner, []).
Proof.
  intros H. apply has_block_iff in H. unfold has_blockb in H.
  destruct (cut_at_fence s) as [[pre a]|] eqn:E; [|done].
  destruct (cut_at_fence a) as [[b a']|] eqn:E'; [|done]. clear H.
  destruct (drop_tag_split (own_tags v) a (no_backtick_own_tags v))
    as (tag & Ha & Hnb & Hcase).
  set (t := drop_tag (own_tags v) a) in *.
  rewrite Ha, cut_at_fence_word in E' by done.
  destruct (cut_at_fence t) as [[inner post]|] eqn:Et; [|done].
  exists pre, tag, inner, post.
  pose proof (cut_at_fence_Some _ _ _ E) as Hs.
  pose proof (cut_at_fence_Some _ _ _ Et) as Ht.
  split; [by rewrite Hs, Ha, Ht|].
  split; [by eapply cut_at_fence_app_fence|].
  split; [|by eapply cut_at_fence_app_fence].
  destruct Hcase as [Hin|[-> Hall]]; [by left|right].
  split; [done|]. intros w Hw [k Hk].
  specialize (Hall w Hw). rewrite Ha, Ht, Hk in Hall. simpl app in Hall.
  by rewrite <- app_assoc, after_prefix_app in Hall.
Qed.

End HasBlock.

(** * The claims *)

(** ** Extraction *)

(** C1, as stated, fails.  The response [two_blocks_response] starts with a
    block tagged html, as in the worked example of the specification, whose
    inner content is ["<p>x</p>"].  The extractor of the server route
    returns it; the extractor of the client-side application returns
    ["html\n<p>x</p>"], the tag included, which is not the trimmed inner
    content of that block. *)
Lemma first_block_foreign_tag_counterexample :
  two_blocks_response =
    [] ++ fenced_block (lit "html") (lit "<p>x</p>" ++ [LF]) ++
    ([LF] ++ fenced_block (lit "js") (lit "f();" ++ [LF])) /\
  trim (lit "<p>x</p>" ++ [LF]) = lit "<p>x</p>" /\
  extractedCode ServerRoute two_blocks_response = Some (lit "<p>x</p>") /\
  extractedCode ClientApp two_blocks_response =
    Some (lit "html" ++ [LF] ++ lit "<p>x</p>") /\
  extractedCode ClientApp two_blocks_response <>
    Some (trim (lit "<p>x</p>" ++ [LF])).
Proof. repeat split; by vm_compute. Qed.

(** C1, amended.  Let a response be cut at its first fence, [pre] being the
    text before it, then at the next fence after the opening marker, the
    opening marker being the fence together with the variant's own tag (html
    for the server route; javascript or js for the client-side application)
    when that tag follows the fence at once.  Each variant returns the
    trimmed text [inner] between the opening marker and that next fence,
    whatever follows in [post], later blocks included.  When the text after
    the fence does not begin with one of the variant's own tags, [inner]
    starts right after the fence. *)
Theorem first_block_extracted (v : variant) (pre tag inner post : jsstring) :
  cut_at_fence (pre ++ FENCE) = Some (pre, []) ->
  tag ∈ own_tags v \/
    (tag = [] /\ forall w, w ∈ own_tags v -> ~ w `prefix_of` inner) ->
  cut_at_fence (inner ++ FENCE) = Some (inner, []) ->
  extractedCode v (pre ++ FENCE ++ tag ++ inner ++ FENCE ++ post) =
  Some (trim inner).
Proof. apply extractedCode_decomposed. Qed.

Lemma first_block_extracted_witness :
  extractedCode ServerRoute
    (lit "See: " ++ FENCE ++ lit "html" ++ (LF :: lit "<b>1</b> ") ++ FENCE ++
     (LF :: lit "```html" ++ LF :: lit "<i>2</i>" ++ LF :: lit "```")) =
  Some (trim (LF :: lit "<b>1</b> ")).
Proof.
  apply (first_block_extracted ServerRoute (lit "See: ") (lit "html")
           (LF :: lit "<b>1</b> ")).
  - reflexivity.
  - left. apply list_elem_of_here.
  - reflexivity.
Defined.

(** C2.  A response without a fenced block gets the fallback of the variant:
    the server route returns the empty string, the client-side application
    returns the response itself, unchanged. *)
Theorem no_block_fallback (response : jsstring) :
  ~ has_block response ->
  extractedCode ServerRoute response = Some [] /\
  extractedCode ClientApp response = Some response.
Proof.
  intros H. rewrite !extractedCode_first_block.
  by rewrite !first_block_None_no_block.
Qed.

Lemma no_block_fallback_witness :
  extractedCode ServerRoute unterminated_response = Some [] /\
  extractedCode ClientApp unterminated_response = Some unterminated_response.
Proof.
  apply (no_block_fallback unterminated_response).
  rewrite has_block_iff. vm_compute. discriminate.
Defined.

(** C3, as stated, fails for the client-side variant: on the worked example
    its extractor does not return ["<div>hi</div>"]. *)
Lemma example_client_counterexample :
  extractedCode ClientApp example_response <> Some (lit "<div>hi</div>").
Proof. by vm_compute. Qed.

(** C3, amended.  On the worked example the extractor of the server route
    returns ["<div>hi</div>"]; the extractor of the client-side application,
    whose regular expression names only javascript and js, returns
    ["html\n<div>hi</div>"]. *)
Theorem example_extracted :
  extractedCode ServerRoute example_response = Some (lit "<div>hi</div>") /\
  extractedCode ClientApp example_response =
    Some (lit "html" ++ [LF] ++ lit "<div>hi</div>").
Proof. by vm_compute. Qed.

(** C6, as stated, fails: for a block tagged js the server route returns
    the tag with the code. *)
Lemma foreign_tag_kept_counterexample :
  tag_word (lit "js") /\
  extractedCode ServerRoute (fenced_block (lit "js") (lit "let x;" ++ [LF])) =
    Some (lit "js" ++ [LF] ++ lit "let x;") /\
  extractedCode ServerRoute (fenced_block (lit "js") (lit "let x;" ++ [LF])) <>
    Some (trim (lit "let x;" ++ [LF])).
Proof.
  split; [|by vm_compute].
  repeat constructor; by vm_compute.
Qed.

Lemma prefix_of_tag_line (w tag r : jsstring) :
  Forall (fun c => c <> LF) w ->
  w `prefix_of` tag ++ LF :: r -> w `prefix_of` tag.
Proof.
  intros Hw. revert tag. induction Hw as [|c w Hc _ IH]; intros tag.
  - intros _. apply prefix_nil.
  - destruct tag as [|c' tag].
    + intros [k Hk]. simpl in Hk. congruence.
    + rewrite <- app_comm_cons. intros [k Hk]. simpl in Hk.
      injection Hk as -> Hk. apply prefix_cons, IH. by exists k.
Qed.

Lemma own_tags_no_LF (v : variant) (w : jsstring) :
  w ∈ own_tags v -> Forall (fun c => c <> LF) w.
Proof.
  destruct v; cbn [own_tags]; rewrite ?elem_of_cons, elem_of_nil;
    intros H; repeat destruct H as [->|H]; try done;
    repeat constructor; by vm_compute.
Qed.

(** C6, amended.  Take the first block of a response, its tag a word ended
    by the line break.  With no tag, or with the variant's own tag (html for
    the server route; javascript or js for the client-side application), the
    extracted code is the trimmed content and the tag leaves no trace.  A tag
    that does not begin with one of the variant's own tags is not recognised:
    it stays at the beginning of the extracted code. *)
Theorem tag_handling (v : variant) (pre tag content post : jsstring) :
  cut_at_fence (pre ++ FENCE) = Some (pre, []) ->
  tag_word tag ->
  cut_at_fence (content ++ FENCE) = Some (content, []) ->
  recognised v tag = true \/
    (forall w, w ∈ own_tags v -> ~ w `prefix_of` tag) ->
  extractedCode v (pre ++ fenced_block tag content ++ post) =
  Some (if recognised v tag then trim content
        else tag ++ trimEnd (LF :: content)).
Proof.
  intros Hpre Hword Hcontent Hcase.
  assert (cut_at_fence ((LF :: content) ++ FENCE) = Some (LF :: content, []))
    as Hline.
  { rewrite <- app_comm_cons, cut_at_fence_space by done. by rewrite Hcontent. }
  unfold recognised in *. case_bool_decide as Hown.
  - clear Hcase. unfold fenced_block.
    replace (pre ++ (FENCE ++ tag ++ [LF] ++ content ++ FENCE) ++ post)
      with (pre ++ FENCE ++ tag ++ (LF :: content) ++ FENCE ++ post)
      by (by rewrite <- !app_assoc).
    rewrite (extractedCode_decomposed v pre tag (LF :: content) post);
      [|done| |done].
    + unfold trim. by rewrite trimStart_space.
    + destruct Hown as [->|Hown]; [right|by left]. split; [done|].
      intros w Hw [k Hk]. pose proof (own_tags_no_LF v w Hw) as Hlf.
      destruct w as [|c w].
      * destruct v; cbn [own_tags] in Hw;
          repeat (apply elem_of_cons in Hw as [Hw|Hw]; [done|]);
          by apply elem_of_nil in Hw.
      * apply Forall_inv in Hlf. simpl in Hk. congruence.
  - destruct Hcase as [|Hforeign]; [done|].
    assert (tag <> []) as Hne by (intros ->; apply Hown; by left).
    unfold fenced_block.
    replace (pre ++ (FENCE ++ tag ++ [LF] ++ content ++ FENCE) ++ post)
      with (pre ++ FENCE ++ [] ++ (tag ++ LF :: content) ++ FENCE ++ post)
      by (by rewrite <- !app_assoc).
    rewrite (extractedCode_decomposed v pre [] (tag ++ LF :: content) post);
      [|done| |].
    + f_equal. unfold trim.
      destruct tag as [|c tag]; [done|].
      pose proof (Forall_inv Hword) as [Hc _].
      rewrite <- app_comm_cons, trimStart_nonspace by done.
      rewrite app_comm_cons. apply trimEnd_word_app; [done|].
      eapply Forall_impl; [exact Hword|]. by intros ? [? _].
    + right. split; [done|]. intros w Hw Hp. apply (Hforeign w Hw).
      eapply prefix_of_tag_line; [by eapply own_tags_no_LF|done].
    + rewrite <- app_assoc, cut_at_fence_word.
      * by rewrite Hline.
      * eapply Forall_impl; [exact Hword|]. intros c [_ Hc].
        by apply N.eqb_neq.
Qed.

(** A tag that begins with one of the variant's own tags loses that
    beginning only. *)
Example own_tag_prefix_run :
  extractedCode ClientApp (fenced_block (lit "jsx") (lit "f();" ++ [LF])) =
  Some (lit "x" ++ [LF] ++ lit "f();").
Proof. by vm_compute. Qed.

Lemma tag_handling_witness :
  extractedCode ServerRoute
    (lit "ok " ++ fenced_block (lit "css") (lit "a{}" ++ [LF]) ++ lit " end") =
  Some (if recognised ServerRoute (lit "css") then trim (lit "a{}" ++ [LF])
        else lit "css" ++ trimEnd (LF :: lit "a{}" ++ [LF])).
Proof.
  apply (tag_handling ServerRoute (lit "ok ") (lit "css") (lit "a{}" ++ [LF])
           (lit " end")).
  - reflexivity.
  - repeat constructor; by vm_compute.
  - reflexivity.
  - right. intros w Hw [k Hk]. cbn [own_tags] in Hw.
    apply list_elem_of_singleton in Hw. subst w. discriminate Hk.
Defined.

(** ** The prompt *)

(** C10.  In both variants the prompt sent to the model is the configured
    prompt when [userInput] is empty or all white space, and otherwise the
    prompt, a blank line, ["User input: "] and [userInput] as typed. *)
Theorem final_prompt_sent (v : variant) (image p u : jsstring)
    (w : model_outcome) :
  finalPrompt p u =
    (if forallb is_space u then p
     else p ++ [LF; LF] ++ lit "User input: " ++ u) /\
  call_prompt <$> (generateCodeFromImage v image p u w).1 = [finalPrompt p u].
Proof.
  split.
  - unfold finalPrompt. rewrite truthy_trim. by destruct (forallb is_space u).
  - by rewrite generateCodeFromImage_eq.
Qed.

(** ** Editing a result *)

(** C9.  [handleCodeChange id newCode] keeps every result in place with its
    id and its full response; the code of a result becomes [newCode] when
    its id is the given one, whatever its full response is, and is left as
    it was otherwise.  Nothing else in the state changes. *)
Theorem handleCodeChange_frame (st : Home.state) (i : nat)
    (newCode : jsstring) :
  Forall2
    (fun o o' =>
       Home.id o' = Home.id o /\
       Home.fullResponse o' = Home.fullResponse o /\
       Home.code o' =
         if Nat.eqb (Home.id o) i then Some newCode else Home.code o)
    (Home.outputs st) (Home.outputs (Home.handleCodeChange i newCode st)) /\
  Home.imageBase64 (Home.handleCodeChange i newCode st) = Home.imageBase64 st /\
  Home.loading (Home.handleCodeChange i newCode st) = Home.loading st /\
  Home.hasStartedGenerating (Home.handleCodeChange i newCode st) =
    Home.hasStartedGenerating st /\
  Home.concurrentRequests (Home.handleCodeChange i newCode st) =
    Home.concurrentRequests st /\
  Home.prompt (Home.handleCodeChange i newCode st) = Home.prompt st /\
  Home.userInput (Home.handleCodeChange i newCode st) = Home.userInput st /\
  Home.showErrorModal (Home.handleCodeChange i newCode st) =
    Home.showErrorModal st.
Proof.
  split; [|done]. cbn [Home.handleCodeChange Home.outputs].
  induction (Home.outputs st) as [|o os IH]; [constructor|].
  cbn [map]. constructor; [|done].
  by destruct (Nat.eqb (Home.id o) i).
Qed.

(** ** The batch *)

Section Batch.
Import Home.

Lemma generateCode_no_image w st order :
  truthy (imageBase64 st) = false -> generateCode w st order = (st, []).
Proof.
  intros H. destruct w; unfold generateCode, ProxyPage.generateCode,
    ClientPage.generateCode; by rewrite submit_None.
Qed.

(** The route answers a request that lacks the image or the prompt with
    status 400, without calling the model. *)
Lemma handler_missing_parameters req world :
  Api.method req = lit "POST" ->
  Api.missing (Api.body_imageBase64 req) || Api.missing (Api.body_prompt req)
    = true ->
  Api.handler req world =
  ([], Api.Response 400 (Api.BodyMessage (lit "Missing required parameters"))).
Proof.
  intros Hm Hmiss. unfold Api.handler. rewrite Hm, Hmiss.
  unfold Api.str_eqb. by rewrite bool_decide_eq_true_2.
Qed.

Lemma proxy_request_no_prompt st w :
  truthy (prompt st) = false -> (ProxyPage.request st w).1 = [].
Proof.
  intros H. unfold ProxyPage.request. destruct w as [|world]; [done|].
  rewrite handler_missing_parameters; [done|done|].
  cbn [Api.body_imageBase64 Api.body_prompt Api.missing]. rewrite H.
  apply orb_true_r.
Qed.

Lemma proxy_calls_no_prompt st world :
  truthy (prompt st) = false ->
  concat (map fst (ProxyPage.requests st world)) = [].
Proof.
  intros H. unfold ProxyPage.requests.
  induction (seq 0 (concurrentRequests st)) as [|i l IH]; [done|].
  cbn [map concat]. by rewrite proxy_request_no_prompt, IH.
Qed.

End Batch.

(** C4 fails on the server-proxied page.  In a batch of two whose second
    model call throws, the route answers that request with status 500 and a
    message; [fetch] fulfils, [res.json()] yields the message object, and the
    page shows the first result next to a result without code, the error
    modal closed.  On the same batch the client-side page reports the
    failure and shows nothing. *)
Theorem proxy_model_failure_not_reported :
  (generateCode (ViaRoute served_second_throws) sample_state [0; 1]).1 =
    Home.State sample_image
      [Home.Output 1 (Some (lit "<div>hi</div>")) (Some example_response);
       Home.Output 2 None None]
      false true 2 (lit "Make a page") [] false /\
  (generateCode (Direct world_second_throws) sample_state [0; 1]).1 =
    failed sample_state.
Proof. split; by vm_compute. Qed.

(** C5.  A batch whose requests all succeed, whatever the order in which
    they complete, ends with one output per request, in the order of the
    requests, the ids being 1, 2, ..., N; the error modal is not opened. *)
Theorem batch_all_succeed (w : page_world) (st : Home.state)
    (order : list nat) (gens : list generation) :
  truthy (Home.imageBase64 st) = true ->
  all_succeed w st gens ->
  order ≡ₚ seq 0 (Home.concurrentRequests st) ->
  Home.outputs (generateCode w st order).1 = outputs_of gens /\
  length (Home.outputs (generateCode w st order).1) =
    Home.concurrentRequests st /\
  Home.id <$> Home.outputs (generateCode w st order).1 =
    seq 1 (Home.concurrentRequests st) /\
  Home.loading (generateCode w st order).1 = false /\
  Home.showErrorModal (generateCode w st order).1 = Home.showErrorModal st.
Proof.
  intros Himg Hall Hperm.
  assert (length gens = Home.concurrentRequests st) as Hlen.
  { destruct w as [world|world]; cbn [all_succeed] in Hall;
      apply (f_equal length) in Hall; rewrite !length_fmap in Hall;
      [rewrite length_proxy_requests in Hall
      |rewrite length_client_requests in Hall]; done. }
  assert ((generateCode w st order).1 =
          Home.State (Home.imageBase64 st) (outputs_of gens) false true
            (Home.concurrentRequests st) (Home.prompt st) (Home.userInput st)
            (Home.showErrorModal st)) as ->.
  { destruct w as [world|world]; cbn [generateCode].
    - by apply proxy_batch_succeeds.
    - by apply client_batch_succeeds. }
  cbn [Home.outputs Home.loading Home.showErrorModal].
  split; [done|]. rewrite <- Hlen. split; [|split; [|done]].
  - unfold outputs_of. by rewrite length_imap.
  - apply outputs_of_ids.
Qed.

Lemma batch_all_succeed_witness :
  Home.outputs (generateCode (ViaRoute served_all_ok) sample_state [1; 0]).1 =
    outputs_of [Generation example_response (lit "<div>hi</div>");
                Generation example_response (lit "<div>hi</div>")] /\
  length (Home.outputs
            (generateCode (ViaRoute served_all_ok) sample_state [1; 0]).1) =
    Home.concurrentRequests sample_state /\
  Home.id <$> Home.outputs
     (generateCode (ViaRoute served_all_ok) sample_state [1; 0]).1 =
    seq 1 (Home.concurrentRequests sample_state) /\
  Home.loading (generateCode (ViaRoute served_all_ok) sample_state [1; 0]).1 =
    false /\
  Home.showErrorModal
    (generateCode (ViaRoute served_all_ok) sample_state [1; 0]).1 =
    Home.showErrorModal sample_state.
Proof.
  apply (batch_all_succeed (ViaRoute served_all_ok) sample_state [1; 0]).
  - reflexivity.
  - reflexivity.
  - apply perm_swap.
Defined.

(** C7, as stated, fails on the client-side page: with an image and an
    empty prompt the batch is submitted and the model is called, with the
    empty prompt. *)
Lemma client_missing_prompt_counterexample :
  truthy (Home.prompt sample_state_no_prompt) = false /\
  (generateCode (Direct world_all_ok) sample_state_no_prompt [0; 1]).2 =
    [ModelCall [] (Some (lit "AAAA")); ModelCall [] (Some (lit "AAAA"))].
Proof. split; by vm_compute. Qed.

(** In the server-proxied page a batch submitted with an empty prompt makes
    no model call and opens no modal; the page shows results without
    code. *)
Example proxy_missing_prompt_run :
  generateCode (ViaRoute served_all_ok) sample_state_no_prompt [0; 1] =
  (Home.State sample_image
     [Home.Output 1 None None; Home.Output 2 None None]
     false true 2 [] [] false, []).
Proof. by vm_compute. Qed.

(** C7, amended.  A submission without image, in either page, and a
    submission without prompt in the server-proxied page, make no call to the
    generation model.  Without image [generateCode] returns at once and the
    state is untouched: nothing is reported, neither inline nor as a batch
    failure.  The request the page makes of such a submission is answered by
    the route with status 400 and the message "Missing required parameters",
    whatever the model would do, and without calling it. *)
Theorem missing_input_no_model_call (w : page_world) (st : Home.state)
    (order : list nat) (world : model_outcome) :
  truthy (Home.imageBase64 st) = false \/
    (truthy (Home.prompt st) = false /\ exists fetches, w = ViaRoute fetches) ->
  (generateCode w st order).2 = [] /\
  ((generateCode w st order).1 = st \/ truthy (Home.imageBase64 st) = true) /\
  Api.handler
    (Api.Request (lit "POST") (Some (Home.imageBase64 st))
       (Some (Home.prompt st)) (Some (Home.userInput st)))
    world =
  ([], Api.Response 400 (Api.BodyMessage (lit "Missing required parameters"))).
Proof.
  intros H. split; [|split].
  - destruct (truthy (Home.imageBase64 st)) eqn:Himg.
    + destruct H as [|[Hp [fetches ->]]]; [done|].
      cbn [generateCode]. unfold ProxyPage.generateCode.
      rewrite submit_Some by done.
      rewrite proxy_calls_no_prompt by done.
      by destruct (promise_all _ _).
    + by rewrite generateCode_no_image.
  - destruct (truthy (Home.imageBase64 st)) eqn:Himg; [by right|left].
    by rewrite generateCode_no_image.
  - apply handler_missing_parameters; [done|].
    cbn [Api.body_imageBase64 Api.body_prompt Api.missing].
    destruct H as [->|[-> _]]; [done|]. apply orb_true_r.
Qed.

Lemma missing_input_no_model_call_witness :
  (generateCode (ViaRoute served_all_ok) sample_state_no_prompt [0; 1]).2 = [] /\
  ((generateCode (ViaRoute served_all_ok) sample_state_no_prompt [0; 1]).1 =
     sample_state_no_prompt \/
   truthy (Home.imageBase64 sample_state_no_prompt) = true) /\
  Api.handler
    (Api.Request (lit "POST")
       (Some (Home.imageBase64 sample_state_no_prompt))
       (Some (Home.prompt sample_state_no_prompt))
       (Some (Home.userInput sample_state_no_prompt)))
    (ModelText example_response) =
  ([], Api.Response 400 (Api.BodyMessage (lit "Missing required parameters"))).
Proof.
  apply (missing_input_no_model_call (ViaRoute served_all_ok)
           sample_state_no_prompt [0; 1] (ModelText example_response)).
  right. split; [reflexivity|]. exists served_all_ok. reflexivity.
Defined.

(** C8, as stated, fails: a page that holds the results of an earlier batch
    shows none of them while the next batch is in flight. *)
Lemma previous_results_cleared_counterexample :
  Home.outputs sample_state_with_results =
    [Home.Output 1 (Some (lit "<p>old</p>")) (Some (lit "old"))] /\
  in_flight (ViaRoute served_all_ok) sample_state_with_results [0] /\
  Home.outputs
    (generateCode (ViaRoute served_all_ok) sample_state_with_results [0]).1 = [].
Proof. repeat split. Qed.

(** C8, amended.  A submission with an image discards the previous results
    at once: while the batch is in flight the outputs are empty and the page
    is loading. *)
Theorem outputs_cleared_on_submission (w : page_world) (st : Home.state)
    (order : list nat) :
  truthy (Home.imageBase64 st) = true ->
  in_flight w st order ->
  Home.outputs (generateCode w st order).1 = [] /\
  Home.loading (generateCode w st order).1 = true.
Proof.
  intros Himg Hfl.
  destruct w as [world|world]; cbn [generateCode in_flight] in *;
    unfold ProxyPage.generateCode, ClientPage.generateCode;
    rewrite submit_Some by done;
    change (map snd ?l) with (snd <$> l); by rewrite Hfl.
Qed.

Lemma outputs_cleared_on_submission_witness :
  Home.outputs
    (generateCode (Direct world_all_ok) sample_state_with_results [1]).1 = [] /\
  Home.loading
    (generateCode (Direct world_all_ok) sample_state_with_results [1]).1 = true.
Proof.
  apply (outputs_cleared_on_submission (Direct world_all_ok)
           sample_state_with_results [1]).
  - reflexivity.
  - reflexivity.
Defined.

(** * Further properties of the code *)

(** ** What the extractors return *)

Section Extracted.
Implicit Types (s t b : jsstring) (c : code_unit) (v : variant).

Lemma trimEnd_prefix s : exists r, s = trimEnd s ++ r.
Proof.
  unfold trimEnd. destruct (trimStart_suffix (rev s)) as [x Hx].
  exists (rev x). rewrite <- rev_app_distr, <- Hx. by rewrite rev_involutive.
Qed.

Lemma trim_part s : exists l r, s = l ++ trim s ++ r.
Proof.
  unfold trim. destruct (trimStart_suffix s) as [l Hl].
  destruct (trimEnd_prefix (trimStart s)) as [r Hr].
  exists l, r. by rewrite <- Hr.
Qed.

Lemma trimEnd_idemp s : trimEnd (trimEnd s) = trimEnd s.
Proof. unfold trimEnd. by rewrite rev_involutive, trimStart_idemp. Qed.

Lemma trimStart_fixed_head s :
  trimStart s = s -> s = [] \/ exists c r, s = c :: r /\ is_space c = false.
Proof.
  destruct s as [|c r]; [by left|]. intros H. right. exists c, r.
  split; [done|]. destruct (is_space c) eqn:E; [|done].
  rewrite trimStart_space in H by done.
  destruct (trimStart_suffix r) as [x Hx]. rewrite H in Hx.
  apply (f_equal length) in Hx. rewrite length_app in Hx. simpl in Hx. lia.
Qed.

Lemma trimStart_trimEnd_fixed s :
  trimStart s = s -> trimStart (trimEnd s) = trimEnd s.
Proof.
  intros H. destruct (trimStart_fixed_head s H) as [->|(c & r & -> & Hc)];
    [done|].
  change (c :: r) with ([c] ++ r).
  rewrite trimEnd_word_app by (done || by repeat constructor).
  by apply trimStart_nonspace.
Qed.

Lemma trim_idemp s : trim (trim s) = trim s.
Proof.
  unfold trim.
  rewrite (trimStart_trimEnd_fixed (trimStart s)) by apply trimStart_idemp.
  apply trimEnd_idemp.
Qed.

(** A part of a text without fence has no fence. *)
Lemma cut_at_fence_part_None l m r :
  cut_at_fence (l ++ m ++ r) = None -> cut_at_fence m = None.
Proof.
  intros H. destruct (cut_at_fence m) as [[x y]|] eqn:E; [|done].
  apply cut_at_fence_Some in E. exfalso.
  apply (cut_at_fence_None _ H (l ++ x) (y ++ r)).
  rewrite E. by rewrite <- !app_assoc.
Qed.

Lemma cut_at_fence_before_None b :
  cut_at_fence (b ++ FENCE) = Some (b, []) -> cut_at_fence b = None.
Proof.
  induction b as [|c b IH]; [done|].
  rewrite <- app_comm_cons. cbn [cut_at_fence].
  destruct (after_prefix FENCE (c :: b ++ FENCE)) as [t|] eqn:E; [done|].
  destruct (cut_at_fence (b ++ FENCE)) as [[x y]|] eqn:E1; [|done].
  intros [= -> ->].
  destruct (after_prefix FENCE (c :: b)) as [t|] eqn:E2.
  - apply after_prefix_Some in E2. rewrite app_comm_cons, E2 in E.
    by rewrite <- app_assoc, after_prefix_app in E.
  - by rewrite IH.
Qed.

(** The capture of the leftmost match is a part of the response, followed
    by a fence and holding none. *)
Lemma first_block_parts v s b :
  first_block v s = Some b ->
  (exists l r, s = l ++ b ++ FENCE ++ r) /\ cut_at_fence b = None.
Proof.
  induction s as [|c s IH].
  - done.
  - cbn [first_block]. destruct (block_at v (c :: s)) as [[b' a]|] eqn:E.
    + intros [= ->]. unfold block_at in E.
      destruct (after_prefix FENCE (c :: s)) as [t|] eqn:E1; [|done].
      apply after_prefix_Some in E1.
      pose proof (cut_at_fence_app_fence _ _ _ E) as Hb.
      apply cut_at_fence_Some in E.
      destruct (trimStart_suffix (drop_tag (own_tags v) t)) as [x Hx].
      destruct (drop_tag_split (own_tags v) t (no_backtick_own_tags v))
        as (y & Hy & _).
      split; [|by apply cut_at_fence_before_None].
      exists (FENCE ++ y ++ x), a. rewrite E1.
      rewrite Hy at 1. rewrite Hx at 1. rewrite E.
      by rewrite <- !app_assoc.
    + intros H. destruct (IH H) as [(l & r & ->) Hb]. split; [|done].
      by exists (c :: l), r.
Qed.

Lemma no_fence_no_block s : cut_at_fence s = None -> ~ has_block s.
Proof. rewrite has_block_iff. unfold has_blockb. by intros ->. Qed.

Lemma has_block_first_block v s : has_block s -> is_Some (first_block v s).
Proof.
  intros H. apply has_block_decomposed with (v := v) in H
    as (pre & tag & inner & post & -> & H1 & H2 & H3).
  rewrite first_block_skip by done.
  rewrite first_block_unfold. unfold block_at. rewrite after_prefix_app.
  rewrite drop_tag_decomposed by done.
  rewrite trimStart_app_fence.
  by rewrite (cut_at_fence_extend _ _ (cut_at_fence_trimStart_end _ H3)).
Qed.

Lemma extracted_block_no_fence v s b :
  first_block v s = Some b ->
  extractedCode v s = Some (trim b) /\ cut_at_fence (trim b) = None.
Proof.
  intros E. rewrite extractedCode_first_block, E. split; [done|].
  destruct (first_block_parts _ _ _ E) as [_ Hb].
  destruct (trim_part b) as (l & r & Hl). rewrite Hl in Hb.
  by apply cut_at_fence_part_None in Hb.
Qed.

End Extracted.

(** X1.  Neither extractor throws, and what it returns is a contiguous part
    of the response: no character is added or reordered. *)
Theorem extracted_part_of_response (v : variant) (response : jsstring) :
  exists c l r,
    extractedCode v response = Some c /\ response = l ++ c ++ r.
Proof.
  rewrite extractedCode_first_block.
  destruct (first_block v response) as [b|] eqn:E.
  - destruct (first_block_parts _ _ _ E) as [(l & r & ->) _].
    destruct (trim_part b) as (l' & r' & Hb).
    exists (trim b), (l ++ l'), (r' ++ FENCE ++ r). split; [done|].
    rewrite Hb at 1. by rewrite <- !app_assoc.
  - destruct v; cbn [fallback].
    + by exists [], [], response.
    + exists response, [], []. by rewrite app_nil_r.
Qed.

(** X2.  The code extracted from a block holds no fence and has no white
    space at either end; for the server route this is so for every
    response, its fallback being the empty string. *)
Theorem extracted_code_clean (v : variant) (response : jsstring) :
  has_block response \/ v = ServerRoute ->
  exists c,
    extractedCode v response = Some c /\
    cut_at_fence c = None /\ trim c = c.
Proof.
  intros H. rewrite extractedCode_first_block.
  destruct (first_block v response) as [b|] eqn:E.
  - exists (trim b). split; [done|]. split; [|apply trim_idemp].
    by apply (extracted_block_no_fence v response).
  - destruct H as [H| ->].
    + apply (has_block_first_block v) in H as [b Hb]. congruence.
    + by exists [].
Qed.

Lemma extracted_code_clean_witness :
  exists c,
    extractedCode ClientApp two_blocks_response = Some c /\
    cut_at_fence c = None /\ trim c = c.
Proof.
  apply (extracted_code_clean ClientApp two_blocks_response).
  left. apply has_block_iff. reflexivity.
Defined.

(** X3.  The extractor of the client-side application is idempotent: applied
    to the code it returned, it returns that code again. *)
Theorem client_extraction_idempotent (response : jsstring) :
  exists c,
    Client.extractedCode response = Some c /\
    Client.extractedCode c = Some c.
Proof.
  change Client.extractedCode with (extractedCode ClientApp).
  destruct (first_block ClientApp response) as [b|] eqn:E.
  - destruct (extracted_block_no_fence _ _ _ E) as (Hc & Hn).
    exists (trim b). split; [done|].
    rewrite extractedCode_first_block.
    by rewrite (first_block_None_no_block _ _ (no_fence_no_block _ Hn)).
  - exists response. rewrite extractedCode_first_block, E. done.
Qed.

(** ** The image sent to the model *)

Lemma split_on_no_sep (sep : code_unit) (s : jsstring) :
  sep ∉ s -> split_on sep s = [s].
Proof.
  induction s as [|c s IH]; [done|].
  intros H. apply not_elem_of_cons in H as [Hc Hs].
  cbn [split_on]. destruct (N.eqb_spec c sep) as [->|]; [done|].
  by rewrite IH.
Qed.

Lemma split_on_app (sep : code_unit) (h t : jsstring) :
  sep ∉ h -> split_on sep (h ++ sep :: t) = h :: split_on sep t.
Proof.
  induction h as [|c h IH]; intros H.
  - simpl. by rewrite N.eqb_refl.
  - apply not_elem_of_cons in H as [Hc Hs]. rewrite <- app_comm_cons.
    cbn [split_on]. destruct (N.eqb_spec c sep) as [->|]; [done|].
    by rewrite IH.
Qed.

(** X4.  Of a data URL, header, comma, payload, the model is sent the
    payload; of an image string without comma it is sent undefined. *)
Theorem image_data_of_data_url (header payload : jsstring) :
  COMMA ∉ header -> COMMA ∉ payload ->
  image_data (header ++ COMMA :: payload) = Some payload /\
  image_data header = None.
Proof.
  intros Hh Hp. unfold image_data. fold COMMA.
  rewrite split_on_app, !split_on_no_sep by done. done.
Qed.

Lemma image_data_of_data_url_witness :
  image_data (sample_data_url_header ++ COMMA :: lit "AAAA") =
    Some (lit "AAAA") /\
  image_data sample_data_url_header = None.
Proof.
  apply (image_data_of_data_url sample_data_url_header (lit "AAAA")).
  - apply (bool_decide_unpack (COMMA ∉ sample_data_url_header)).
    vm_compute. exact I.
  - apply (bool_decide_unpack (COMMA ∉ lit "AAAA")). vm_compute. exact I.
Defined.

(** ** The API route *)

(** X5.  The route calls the model at most once, and only for a POST request
    whose image and prompt are present and not empty; the call carries the
    final prompt and the payload of the image. *)
Theorem handler_calls_model_only_when_valid (req : Api.request)
    (world : model_outcome) :
  (Api.handler req world).1 = [] \/
  exists image p u,
    Api.method req = lit "POST" /\
    Api.body_imageBase64 req = Some image /\ truthy image = true /\
    Api.body_prompt req = Some p /\ truthy p = true /\
    Api.body_userInput req = Some u /\
    (Api.handler req world).1 = [ModelCall (finalPrompt p u) (image_data image)].
Proof.
  unfold Api.handler, Api.str_eqb.
  case_bool_decide as Hm; cbn [negb]; [|by left].
  destruct (Api.body_imageBase64 req) as [image|]; [|by left].
  destruct (Api.body_prompt req) as [p|];
    [|rewrite orb_true_r; by left].
  cbn [Api.missing].
  destruct (truthy image) eqn:Hi; [|by left].
  destruct (truthy p) eqn:Hp; [|by left].
  cbn [negb orb].
  destruct (Api.body_userInput req) as [u|]; [|by left].
  right. exists image, p, u.
  change Server.generateCodeFromImage with (generateCodeFromImage ServerRoute).
  rewrite generateCodeFromImage_eq. by destruct world.
Qed.

(** X6.  Status 405 is the answer to every request that is not a POST, and
    to no other.  A body with a result comes with status 200 only, its full
    response being the text the model returned and its code the extraction
    from that text; every other answer, with status 405, 400 or 500, is a
    message. *)
Theorem handler_answers (req : Api.request) (world : model_outcome) :
  Nat.eqb (Api.status (Api.handler req world).2) 405 =
    negb (Api.str_eqb (Api.method req) (lit "POST")) /\
  match Api.json (Api.handler req world).2 with
  | Api.BodyGeneration g =>
      Api.status (Api.handler req world).2 = 200 /\
      world = ModelText (gen_fullResponse g) /\
      Server.extractedCode (gen_fullResponse g) = Some (gen_code g)
  | Api.BodyMessage _ =>
      Api.status (Api.handler req world).2 ∈ [405; 400; 500]
  end.
Proof.
  unfold Api.handler.
  destruct (Api.str_eqb (Api.method req) (lit "POST")); cbn [negb];
    [|split; [done|set_solver]].
  destruct (Api.missing (Api.body_imageBase64 req)
            || Api.missing (Api.body_prompt req));
    [split; [done|set_solver]|].
  destruct (Api.body_imageBase64 req) as [image|];
    [|split; [done|set_solver]].
  destruct (Api.body_prompt req) as [p|]; [|split; [done|set_solver]].
  destruct (Api.body_userInput req) as [u|]; [|split; [done|set_solver]].
  change Server.generateCodeFromImage with (generateCodeFromImage ServerRoute).
  rewrite generateCodeFromImage_eq.
  destruct world as [r|]; [|split; [done|set_solver]].
  split; [done|]. cbn. split; [done|]. split; [done|].
  apply (extractedCode_first_block ServerRoute).
Qed.

(** X7.  A POST request with image, prompt and user input is passed to the
    model, once: the answer has status 200 when the model returns and status
    500 when it throws. *)
Theorem handler_valid_request (image p u : jsstring) (world : model_outcome) :
  truthy image = true -> truthy p = true ->
  (Api.handler (Api.Request (lit "POST") (Some image) (Some p) (Some u))
     world).1 = [ModelCall (finalPrompt p u) (image_data image)] /\
  Api.status
    (Api.handler (Api.Request (lit "POST") (Some image) (Some p) (Some u))
       world).2 =
    match world with
    | ModelText _ => 200
    | ModelThrows => 500
    end.
Proof.
  intros Hi Hp. unfold Api.handler.
  cbn [Api.method Api.body_imageBase64 Api.body_prompt Api.body_userInput
       Api.missing].
  rewrite Hi, Hp. unfold Api.str_eqb. rewrite bool_decide_eq_true_2 by done.
  cbn [negb orb].
  change Server.generateCodeFromImage with (generateCodeFromImage ServerRoute).
  rewrite generateCodeFromImage_eq. by destruct world.
Qed.

Lemma handler_valid_request_witness :
  (Api.handler
     (Api.Request (lit "POST") (Some sample_image) (Some (lit "Make a page"))
        (Some []))
     ModelThrows).1 =
    [ModelCall (finalPrompt (lit "Make a page") []) (image_data sample_image)] /\
  Api.status
    (Api.handler
       (Api.Request (lit "POST") (Some sample_image) (Some (lit "Make a page"))
          (Some []))
       ModelThrows).2 = 500.
Proof.
  apply (handler_valid_request sample_image (lit "Make a page") [] ModelThrows).
  - reflexivity.
  - reflexivity.
Defined.

(** ** A batch from submission to completion *)

Section Completion.
Import Home.
Implicit Types (st : state) (order : list nat).

Lemma settled_cases {A} (outcomes : list (settled A)) :
  (exists vals, outcomes = Fulfilled <$> vals) \/
  (exists j, outcomes !! j = Some Rejected).
Proof.
  induction outcomes as [|[x|] outcomes IH].
  - left. by exists [].
  - destruct IH as [[vals ->]|[j Hj]].
    + left. by exists (x :: vals).
    + right. by exists (S j).
  - right. by exists 0.
Qed.

(** The server-proxied page once every request is fulfilled, with whatever
    body. *)
Lemma proxy_batch_fulfilled st world order (bodies : list Api.body) :
  truthy (imageBase64 st) = true ->
  snd <$> ProxyPage.requests st world = Fulfilled <$> bodies ->
  order ≡ₚ seq 0 (concurrentRequests st) ->
  (ProxyPage.generateCode st world order).1 =
  State (imageBase64 st)
    (imap (fun i b => Output (i + 1) (Api.code_of b) (Api.fullResponse_of b))
       bodies)
    false true (concurrentRequests st) (prompt st) (userInput st)
    (showErrorModal st).
Proof.
  intros Himg Hall Hperm. unfold ProxyPage.generateCode.
  rewrite submit_Some by done.
  change (map snd ?l) with (snd <$> l). rewrite Hall.
  assert (length bodies = concurrentRequests st) as Hlen.
  { rewrite <- (length_proxy_requests st world).
    rewrite <- (length_fmap snd), Hall. by rewrite length_fmap. }
  rewrite promise_all_fulfilled by by rewrite Hlen.
  cbn [fst settle]. by rewrite map_results_Some.
Qed.

Lemma proxy_request_network_error st world j :
  j < concurrentRequests st -> world j = ProxyPage.NetworkError ->
  (snd <$> ProxyPage.requests st world) !! j = Some Rejected.
Proof.
  intros Hj Hw. unfold ProxyPage.requests, ProxyPage.request.
  rewrite list_lookup_fmap.
  change (map ?f ?l) with (f <$> l). rewrite list_lookup_fmap.
  rewrite lookup_seq_lt by done. cbn [fmap option_fmap option_map Nat.add].
  by rewrite Hw.
Qed.

Lemma proxy_requests_served st world (l : list nat) :
  (forall i, i ∈ l -> world i <> ProxyPage.NetworkError) ->
  exists bodies,
    snd <$> map (fun i => ProxyPage.request st (world i)) l =
    Fulfilled <$> bodies.
Proof.
  induction l as [|i l IH]; intros H; [by exists []|].
  destruct IH as [bodies Hb]; [intros j Hj; apply H; by right|].
  assert (world i <> ProxyPage.NetworkError) as Hi by (apply H; left).
  unfold ProxyPage.request at 1. cbn [map fmap list_fmap].
  destruct (world i) as [|mw]; [done|].
  destruct (Api.handler _ mw) as [calls res].
  exists (Api.json res :: bodies). cbn [snd fmap list_fmap]. f_equal. exact Hb.
Qed.

Lemma generateCode_completed w st order :
  truthy (imageBase64 st) = true ->
  order ≡ₚ seq 0 (concurrentRequests st) ->
  (generateCode w st order).1 = failed st \/
  exists outs,
    length outs = concurrentRequests st /\
    (generateCode w st order).1 =
    State (imageBase64 st) outs false true (concurrentRequests st)
      (prompt st) (userInput st) (showErrorModal st).
Proof.
  intros Himg Hperm. destruct w as [world|world]; cbn [generateCode].
  - destruct (settled_cases (snd <$> ProxyPage.requests st world))
      as [[bodies Hb]|[j Hj]].
    + right. eexists. split; [|by apply proxy_batch_fulfilled].
      rewrite length_imap. rewrite <- (length_proxy_requests st world).
      rewrite <- (length_fmap snd), Hb. by rewrite length_fmap.
    + left. by eapply proxy_batch_rejected.
  - destruct (settled_cases (snd <$> ClientPage.requests st world))
      as [[gens Hb]|[j Hj]].
    + right. eexists. split; [|by apply client_batch_succeeds].
      unfold outputs_of. rewrite length_imap.
      rewrite <- (length_client_requests st world).
      rewrite <- (length_fmap snd), Hb. by rewrite length_fmap.
    + left. by eapply client_batch_rejected.
Qed.

Lemma client_calls st world :
  concat (map fst (ClientPage.requests st world)) =
  replicate (concurrentRequests st) (call_of st).
Proof.
  unfold ClientPage.requests.
  rewrite <- (length_seq (concurrentRequests st) 0) at 2.
  induction (seq 0 (concurrentRequests st)) as [|k ks IHk]; [done|].
  cbn [map concat length replicate]. rewrite IHk.
  unfold ClientPage.request.
  change Client.generateCodeFromImage with (generateCodeFromImage ClientApp).
  by rewrite generateCodeFromImage_eq.
Qed.

Lemma handler_valid image p u world :
  truthy image = true -> truthy p = true ->
  (Api.handler (Api.Request (lit "POST") (Some image) (Some p) (Some u))
     world).1 = [ModelCall (finalPrompt p u) (image_data image)] /\
  Api.status
    (Api.handler (Api.Request (lit "POST") (Some image) (Some p) (Some u))
       world).2 =
    match world with
    | ModelText _ => 200
    | ModelThrows => 500
    end.
Proof.
  intros Hi Hp. unfold Api.handler.
  cbn [Api.method Api.body_imageBase64 Api.body_prompt Api.body_userInput
       Api.missing].
  rewrite Hi, Hp. unfold Api.str_eqb. rewrite bool_decide_eq_true_2 by done.
  cbn [negb orb].
  change Server.generateCodeFromImage with (generateCodeFromImage ServerRoute).
  rewrite generateCodeFromImage_eq. by destruct world.
Qed.

Lemma proxy_calls st world :
  truthy (imageBase64 st) = true -> truthy (prompt st) = true ->
  concat (map fst (ProxyPage.requests st world)) =
  replicate
    (length (filter (fun i => is_served (world i) = true)
               (seq 0 (concurrentRequests st))))
    (call_of st).
Proof.
  intros Hi Hp. unfold ProxyPage.requests.
  induction (seq 0 (concurrentRequests st)) as [|k ks IHk]; [done|].
  cbn [map concat]. rewrite filter_cons. rewrite IHk.
  unfold ProxyPage.request at 1. destruct (world k) as [|mw]; cbn [is_served].
  - by rewrite decide_False by done.
  - rewrite decide_True by done.
    pose proof (handler_valid (imageBase64 st) (prompt st)
                  (userInput st) mw Hi Hp) as [Hc _].
    destruct (Api.handler _ mw) as [calls res]. cbn [fst] in *. by rewrite Hc.
Qed.

End Completion.

(** X8.  Once every request of a submitted batch has settled, in whatever
    order, the page has left the loading state: either the batch has failed
    (error modal open, no output) or there is one output per request and the
    error modal is as it was. *)
Theorem batch_completes (w : page_world) (st : Home.state)
    (order : list nat) :
  truthy (Home.imageBase64 st) = true ->
  order ≡ₚ seq 0 (Home.concurrentRequests st) ->
  Home.loading (generateCode w st order).1 = false /\
  Home.hasStartedGenerating (generateCode w st order).1 = true /\
  ((generateCode w st order).1 = failed st \/
   (length (Home.outputs (generateCode w st order).1) =
      Home.concurrentRequests st /\
    Home.showErrorModal (generateCode w st order).1 =
      Home.showErrorModal st)).
Proof.
  intros Himg Hperm.
  destruct (generateCode_completed w st order Himg Hperm)
    as [->|(outs & Hlen & ->)].
  - split; [done|]. split; [done|]. by left.
  - split; [done|]. split; [done|]. by right.
Qed.

Lemma batch_completes_witness :
  Home.loading
    (generateCode (ViaRoute served_second_throws) sample_state [1; 0]).1 =
    false /\
  Home.hasStartedGenerating
    (generateCode (ViaRoute served_second_throws) sample_state [1; 0]).1 =
    true /\
  ((generateCode (ViaRoute served_second_throws) sample_state [1; 0]).1 =
     failed sample_state \/
   (length (Home.outputs
              (generateCode (ViaRoute served_second_throws) sample_state
                 [1; 0]).1) =
      Home.concurrentRequests sample_state /\
    Home.showErrorModal
      (generateCode (ViaRoute served_second_throws) sample_state [1; 0]).1 =
      Home.showErrorModal sample_state)).
Proof.
  apply (batch_completes (ViaRoute served_second_throws) sample_state [1; 0]).
  - reflexivity.
  - apply perm_swap.
Defined.

(** X9.  [generateCode] never changes the inputs of the page: the image,
    the prompt, the user input and the number of requests are the same
    before, during and after a batch. *)
Theorem generateCode_keeps_inputs (w : page_world) (st : Home.state)
    (order : list nat) :
  Home.imageBase64 (generateCode w st order).1 = Home.imageBase64 st /\
  Home.prompt (generateCode w st order).1 = Home.prompt st /\
  Home.userInput (generateCode w st order).1 = Home.userInput st /\
  Home.concurrentRequests (generateCode w st order).1 =
    Home.concurrentRequests st.
Proof.
  destruct w as [world|world]; cbn [generateCode];
    unfold ProxyPage.generateCode, ClientPage.generateCode, Home.submit;
    destruct (truthy (Home.imageBase64 st)); cbn [negb]; try done;
    destruct (promise_all _ order) as [[results|]|]; try done;
    cbn [fst Home.settle]; by destruct (Home.map_results _ _ 0 results).
Qed.

(** X10.  A batch submitted in the client-side page calls the model once
    per request, every time with the same final prompt and the same image
    payload, whatever the model answers and in whatever order. *)
Theorem client_batch_calls (world : nat -> model_outcome) (st : Home.state)
    (order : list nat) :
  truthy (Home.imageBase64 st) = true ->
  (generateCode (Direct world) st order).2 =
  replicate (Home.concurrentRequests st) (call_of st).
Proof.
  intros Himg. cbn [generateCode]. unfold ClientPage.generateCode.
  rewrite submit_Some by done. rewrite client_calls.
  by destruct (promise_all _ order).
Qed.

Lemma client_batch_calls_witness :
  (generateCode (Direct world_second_throws) sample_state [1]).2 =
  replicate (Home.concurrentRequests sample_state) (call_of sample_state).
Proof.
  apply (client_batch_calls world_second_throws sample_state [1]).
  reflexivity.
Defined.

(** X11.  A batch submitted in the server-proxied page with an image and a
    prompt makes the route call the model once for each request that reaches
    it, with the call the client-side page would make; a request that does
    not reach the route causes no call. *)
Theorem proxy_batch_calls (world : nat -> ProxyPage.fetch_outcome)
    (st : Home.state) (order : list nat) :
  truthy (Home.imageBase64 st) = true ->
  truthy (Home.prompt st) = true ->
  (generateCode (ViaRoute world) st order).2 =
  replicate
    (length (filter (fun i => is_served (world i) = true)
               (seq 0 (Home.concurrentRequests st))))
    (call_of st).
Proof.
  intros Himg Hp. cbn [generateCode]. unfold ProxyPage.generateCode.
  rewrite submit_Some by done. rewrite proxy_calls by done.
  by destruct (promise_all _ order).
Qed.

Lemma proxy_batch_calls_witness :
  (generateCode (ViaRoute served_second_throws) sample_state [0; 1]).2 =
  replicate
    (length (filter (fun i => is_served (served_second_throws i) = true)
               (seq 0 (Home.concurrentRequests sample_state))))
    (call_of sample_state).
Proof.
  apply (proxy_batch_calls served_second_throws sample_state [0; 1]).
  - reflexivity.
  - reflexivity.
Defined.

Lemma imap_output_ids {R} (co fo : R -> option jsstring) (rs : list R) k :
  Home.id <$> imap (fun i r => Home.Output (k + i + 1) (co r) (fo r)) rs =
  seq (k + 1) (length rs).
Proof.
  revert k. induction rs as [|r rs IH]; intros k; [done|].
  cbn [imap fmap list_fmap length seq Home.id].
  fold (@fmap list _ _ _ Home.id). f_equal; [lia|].
  replace (S (k + 1)) with (S k + 1) by lia.
  rewrite <- (IH (S k)). f_equal. apply imap_ext. intros i x _. simpl.
  f_equal. lia.
Qed.

(** X12.  In the server-proxied page, when every request of the batch
    reaches the route, the error modal is never opened, whatever the model
    does: the batch ends with one output per request, numbered 1 to N. *)
Theorem proxy_served_batch_never_fails (world : nat -> ProxyPage.fetch_outcome)
    (st : Home.state) (order : list nat) :
  truthy (Home.imageBase64 st) = true ->
  (forall i, i < Home.concurrentRequests st ->
             world i <> ProxyPage.NetworkError) ->
  order ≡ₚ seq 0 (Home.concurrentRequests st) ->
  Home.showErrorModal (generateCode (ViaRoute world) st order).1 =
    Home.showErrorModal st /\
  Home.id <$> Home.outputs (generateCode (ViaRoute world) st order).1 =
    seq 1 (Home.concurrentRequests st).
Proof.
  intros Himg Hserved Hperm. cbn [generateCode].
  destruct (proxy_requests_served st world (seq 0 (Home.concurrentRequests st)))
    as [bodies Hb].
  { intros i Hi. apply Hserved. apply elem_of_seq in Hi. lia. }
  rewrite (proxy_batch_fulfilled st world order bodies) by done.
  cbn [Home.showErrorModal Home.outputs]. split; [done|].
  assert (length bodies = Home.concurrentRequests st) as <-.
  { rewrite <- (length_proxy_requests st world). unfold ProxyPage.requests.
    rewrite <- (length_fmap snd), Hb. by rewrite length_fmap. }
  apply (imap_output_ids Api.code_of Api.fullResponse_of bodies 0).
Qed.

Lemma proxy_served_batch_never_fails_witness :
  Home.showErrorModal
    (generateCode (ViaRoute served_second_throws) sample_state [1; 0]).1 =
    Home.showErrorModal sample_state /\
  Home.id <$> Home.outputs
     (generateCode (ViaRoute served_second_throws) sample_state [1; 0]).1 =
    seq 1 (Home.concurrentRequests sample_state).
Proof.
  apply (proxy_served_batch_never_fails served_second_throws sample_state
           [1; 0]).
  - reflexivity.
  - intros i _. discriminate.
  - apply perm_swap.
Defined.

(** X13.  A rejected request fails the whole batch, wherever it stands and
    whenever it settles: in the server-proxied page a fetch that does not
    reach the route, in the client-side page a model call that throws.  The
    page ends with the error modal open and no output. *)
Theorem batch_fails_on_rejection (w : page_world) (st : Home.state)
    (order : list nat) (j : nat) :
  truthy (Home.imageBase64 st) = true ->
  j < Home.concurrentRequests st ->
  request_rejects w j ->
  order ≡ₚ seq 0 (Home.concurrentRequests st) ->
  (generateCode w st order).1 = failed st.
Proof.
  intros Himg Hj Hrej Hperm.
  destruct w as [world|world]; cbn [generateCode request_rejects] in *.
  - apply (proxy_batch_rejected st world order j); [done| |done].
    by apply proxy_request_network_error.
  - apply (client_batch_rejected st world order j); [done| |done].
    by apply client_request_throws.
Qed.

Lemma batch_fails_on_rejection_witness :
  (generateCode (Direct world_second_throws) sample_state [0; 1]).1 =
  failed sample_state.
Proof.
  apply (batch_fails_on_rejection (Direct world_second_throws) sample_state
           [0; 1] 1).
  - reflexivity.
  - unfold sample_state. cbn. lia.
  - reflexivity.
  - reflexivity.
Defined.



(** The button while the first request is still outstanding: disabled when
    nothing has settled, enabled when the other request has been rejected. *)
Example generate_button_after_rejection :
  Page.generateDisabled
    (generateCode (Direct world_second_throws) sample_state []).1 = true /\
  Page.generateDisabled
    (generateCode (Direct world_second_throws) sample_state [1]).1 = false.
Proof. split; reflexivity. Qed.

(** ** Editing results *)

Section Edits.
Import Home.
Implicit Types (st : state).

Lemma handleCodeChange_outputs i c st :
  outputs (handleCodeChange i c st) =
  (fun o => if Nat.eqb (id o) i then Output (id o) (Some c) (fullResponse o)
            else o) <$> outputs st.
Proof. done. Qed.

Lemma state_eq (st st' : state) :
  imageBase64 st = imageBase64 st' -> outputs st = outputs st' ->
  loading st = loading st' ->
  hasStartedGenerating st = hasStartedGenerating st' ->
  concurrentRequests st = concurrentRequests st' ->
  prompt st = prompt st' -> userInput st = userInput st' ->
  showErrorModal st = showErrorModal st' -> st = st'.
Proof. destruct st, st'. simpl. by intros -> -> -> -> -> -> -> ->. Qed.

Lemma outputs_of_lookup gens k :
  outputs_of gens !! k =
  (fun g => Output (k + 1) (Some (gen_code g)) (Some (gen_fullResponse g)))
    <$> gens !! k.
Proof. unfold outputs_of. by rewrite list_lookup_imap. Qed.

End Edits.

(** X15.  Of two successive edits of the same result the later one wins:
    the state is the one the later edit alone would give. *)
Theorem handleCodeChange_last_edit_wins (st : Home.state) (i : nat)
    (c1 c2 : jsstring) :
  Home.handleCodeChange i c2 (Home.handleCodeChange i c1 st) =
  Home.handleCodeChange i c2 st.
Proof.
  apply state_eq; try done.
  rewrite !handleCodeChange_outputs, <- list_fmap_compose.
  apply list_fmap_ext. intros k o _. simpl.
  destruct (Nat.eqb (Home.id o) i) eqn:E; simpl; by rewrite E.
Qed.

(** X16.  Edits of results with different ids commute. *)
Theorem handleCodeChange_commute (st : Home.state) (i j : nat)
    (c d : jsstring) :
  i <> j ->
  Home.handleCodeChange i c (Home.handleCodeChange j d st) =
  Home.handleCodeChange j d (Home.handleCodeChange i c st).
Proof.
  intros Hij. apply state_eq; try done.
  rewrite !handleCodeChange_outputs, <- !list_fmap_compose.
  apply list_fmap_ext. intros k o _. simpl.
  destruct (Nat.eqb (Home.id o) i) eqn:Ei, (Nat.eqb (Home.id o) j) eqn:Ej;
    simpl; rewrite ?Ei, ?Ej; try done.
  apply Nat.eqb_eq in Ei, Ej. congruence.
Qed.

Lemma handleCodeChange_commute_witness :
  Home.handleCodeChange 1 (lit "a")
    (Home.handleCodeChange 2 (lit "b") sample_state_with_results) =
  Home.handleCodeChange 2 (lit "b")
    (Home.handleCodeChange 1 (lit "a") sample_state_with_results).
Proof.
  apply (handleCodeChange_commute sample_state_with_results 1 2
           (lit "a") (lit "b")).
  discriminate.
Defined.

(** X17.  An edit for an id that no result carries changes nothing. *)
Theorem handleCodeChange_unknown_id (st : Home.state) (i : nat)
    (c : jsstring) :
  i ∉ Home.id <$> Home.outputs st ->
  Home.handleCodeChange i c st = st.
Proof.
  intros Hi. apply state_eq; try done.
  rewrite handleCodeChange_outputs.
  induction (Home.outputs st) as [|o os IH]; [done|].
  cbn [fmap list_fmap] in *. fold (@fmap list _ _ _ Home.id os) in Hi.
  apply not_elem_of_cons in Hi as [Ho Hos].
  destruct (Nat.eqb_spec (Home.id o) i); [congruence|].
  f_equal. by apply IH.
Qed.

Lemma handleCodeChange_unknown_id_witness :
  Home.handleCodeChange 7 (lit "a") sample_state_with_results =
  sample_state_with_results.
Proof.
  apply (handleCodeChange_unknown_id sample_state_with_results 7 (lit "a")).
  apply (bool_decide_unpack
           (7 ∉ Home.id <$> Home.outputs sample_state_with_results)).
  vm_compute. exact I.
Defined.

(** X18.  After a batch whose requests all succeeded, editing the result
    numbered k + 1 replaces the entry at position k, and only it: its code
    becomes the new code, its id and its full response stay. *)
Theorem edit_after_generation (w : page_world) (st : Home.state)
    (order : list nat) (gens : list generation) (k : nat) (g : generation)
    (c : jsstring) :
  truthy (Home.imageBase64 st) = true ->
  all_succeed w st gens ->
  order ≡ₚ seq 0 (Home.concurrentRequests st) ->
  gens !! k = Some g ->
  Home.outputs (Home.handleCodeChange (k + 1) c (generateCode w st order).1) =
  <[k := Home.Output (k + 1) (Some c) (Some (gen_fullResponse g))]>
    (Home.outputs (generateCode w st order).1).
Proof.
  intros Himg Hall Hperm Hk.
  assert ((generateCode w st order).1 =
          Home.State (Home.imageBase64 st) (outputs_of gens) false true
            (Home.concurrentRequests st) (Home.prompt st) (Home.userInput st)
            (Home.showErrorModal st)) as ->.
  { destruct w as [world|world]; cbn [generateCode].
    - by apply proxy_batch_succeeds.
    - by apply client_batch_succeeds. }
  rewrite handleCodeChange_outputs. cbn [Home.outputs].
  apply list_eq. intros j. rewrite list_lookup_fmap.
  destruct (decide (j = k)) as [->|Hjk].
  - rewrite list_lookup_insert_eq
      by (unfold outputs_of; rewrite length_imap; by eapply lookup_lt_Some).
    rewrite outputs_of_lookup, Hk. cbn. by rewrite Nat.eqb_refl.
  - rewrite list_lookup_insert_ne by done.
    rewrite outputs_of_lookup. destruct (gens !! j) as [g'|]; [|done].
    cbn. destruct (Nat.eqb_spec (j + 1) (k + 1)); [lia|done].
Qed.

Lemma edit_after_generation_witness :
  Home.outputs
    (Home.handleCodeChange (1 + 1) (lit "<p>mine</p>")
       (generateCode (ViaRoute served_all_ok) sample_state [1; 0]).1) =
  <[1 := Home.Output (1 + 1) (Some (lit "<p>mine</p>"))
           (Some (gen_fullResponse
                    (Generation example_response (lit "<div>hi</div>"))))]>
    (Home.outputs (generateCode (ViaRoute served_all_ok) sample_state [1; 0]).1).
Proof.
  apply (edit_after_generation (ViaRoute served_all_ok) sample_state [1; 0]
           [Generation example_response (lit "<div>hi</div>");
            Generation example_response (lit "<div>hi</div>")]).
  - reflexivity.
  - reflexivity.
  - apply perm_swap.
  - reflexivity.
Defined.

(** ** The preview component *)

(** X19.  After any sequence of clicks on the toggle buttons exactly one of
    the three is selected: the one clicked last, or Preview when none was
    clicked; the pane shown is the pane of that button. *)
Theorem one_view_selected (clicks : list CodePreview.button) :
  CodePreview.isSelected (last_clicked clicks)
    (foldl (fun s b => CodePreview.onClick b s) CodePreview.initial clicks) =
    true /\
  length
    (filter
       (fun b =>
          CodePreview.isSelected b
            (foldl (fun s b => CodePreview.onClick b s) CodePreview.initial
               clicks) = true)
       [CodePreview.Preview; CodePreview.Reasoning; CodePreview.Code]) = 1 /\
  CodePreview.shown
    (foldl (fun s b => CodePreview.onClick b s) CodePreview.initial clicks) =
    pane_of (last_clicked clicks).
Proof.
  unfold last_clicked.
  destruct clicks as [|b0 clicks] using rev_ind; [done|].
  rewrite foldl_app, last_snoc. cbn [foldl default].
  by destruct b0.
Qed.

(** X20.  What the editor reports is what the preview renders next: after a
    change of the editor of a result, the code previewed for that result is
    the new value, or the empty string when the editor reports none. *)
Theorem editor_change_previewed (st : Home.state) (k : nat)
    (o : Home.output) (value : option jsstring) :
  Home.outputs st !! k = Some o ->
  CodePreview.htmlCode
    (Home.outputs (CodePreview.onChange o value st) !! k) =
  default [] value.
Proof.
  intros Hk. unfold CodePreview.onChange.
  rewrite handleCodeChange_outputs, list_lookup_fmap, Hk. cbn.
  rewrite Nat.eqb_refl. by destruct value.
Qed.

Lemma editor_change_previewed_witness :
  CodePreview.htmlCode
    (Home.outputs
       (CodePreview.onChange
          (Home.Output 1 (Some (lit "<p>old</p>")) (Some (lit "old")))
          None sample_state_with_results) !! 0) =
  default [] None.
Proof.
  apply (editor_change_previewed sample_state_with_results 0
           (Home.Output 1 (Some (lit "<p>old</p>")) (Some (lit "old"))) None).
  reflexivity.
Defined.

(** ** The prompt and its storage *)

Section Prompt.
Import Home.
Implicit Types (d v p : jsstring) (storage : gmap jsstring jsstring)
  (edits : list jsstring).

Lemma truthy_false_nil p : truthy p = false -> p = [].
Proof. by destruct p. Qed.

Lemma mount_stored d storage :
  (Page.mount d storage).2 !! Page.SAVED_PROMPT =
    Some (prompt (Page.mount d storage).1) /\
  delete Page.SAVED_PROMPT (Page.mount d storage).2 =
    delete Page.SAVED_PROMPT storage /\
  (truthy (prompt (Page.mount d storage).1) = true \/
   prompt (Page.mount d storage).1 = d).
Proof.
  unfold Page.mount, Page.loadPrompt.
  destruct (storage !! Page.SAVED_PROMPT) as [saved|] eqn:E.
  - destruct (truthy saved) eqn:Ht.
    + cbn. unfold Page.savePrompt. rewrite Ht.
      rewrite lookup_insert_eq, delete_insert_eq. auto.
    + cbn. unfold Page.savePrompt.
      destruct (truthy d); rewrite ?lookup_insert_eq, ?delete_insert_eq; auto.
  - cbn. unfold Page.savePrompt.
    destruct (truthy d); rewrite ?lookup_insert_eq, ?delete_insert_eq; auto.
Qed.

Lemma mount_prompt_of_saved d storage q :
  storage !! Page.SAVED_PROMPT = Some q ->
  prompt (Page.mount d storage).1 = if truthy q then q else d.
Proof.
  intros H. unfold Page.mount, Page.loadPrompt. rewrite H.
  by destruct (truthy q).
Qed.

Lemma filter_truthy_snoc (l : list jsstring) v :
  filter (fun p => truthy p = true) (l ++ [v]) =
  if truthy v then filter (fun p => truthy p = true) l ++ [v]
  else filter (fun p => truthy p = true) l.
Proof.
  rewrite filter_app. destruct (truthy v) eqn:E.
  - by rewrite filter_cons_True.
  - rewrite filter_cons_False by (by rewrite E). apply app_nil_r.
Qed.

(** What holds of a page at any time after it was mounted. *)
Lemma edits_invariant d storage edits :
  let pg := foldl (fun pg v => Page.editPrompt v pg) (Page.mount d storage)
              edits in
  pg.2 !! Page.SAVED_PROMPT =
    Some (default d
            (last (filter (fun p => truthy p = true)
                     (prompt (Page.mount d storage).1 :: edits)))) /\
  (prompt pg.1 = [] \/ pg.2 !! Page.SAVED_PROMPT = Some (prompt pg.1)) /\
  delete Page.SAVED_PROMPT pg.2 = delete Page.SAVED_PROMPT storage.
Proof.
  induction edits as [|v edits IH] using rev_ind.
  - cbn [foldl]. destruct (mount_stored d storage) as (Hs & Hd & Ht).
    split; [|split; [by right|done]].
    rewrite Hs. f_equal. rewrite filter_cons, filter_nil.
    destruct Ht as [Ht|Ht].
    + by rewrite decide_True.
    + destruct (truthy (prompt (Page.mount d storage).1)) eqn:E.
      * by rewrite decide_True.
      * by rewrite decide_False.
  - cbn zeta in *. rewrite foldl_app. cbn [foldl].
    destruct IH as (Hs & Hj & Hd).
    destruct (foldl _ (Page.mount d storage) edits) as [st ls].
    cbn [fst snd] in *. rewrite app_comm_cons, filter_truthy_snoc.
    unfold Page.editPrompt. case_bool_decide as Hv.
    + cbn [fst snd]. split; [|done].
      destruct (truthy v) eqn:Ht; [|done].
      rewrite last_snoc. cbn [default].
      destruct Hj as [Hj|Hj]; [|by rewrite Hv].
      rewrite Hv, Hj in Ht. done.
    + cbn [fst snd prompt Page.setPrompt]. unfold Page.savePrompt.
      destruct (truthy v) eqn:Ht.
      * rewrite last_snoc. cbn [default].
        rewrite lookup_insert_eq, delete_insert_eq. auto.
      * split; [done|]. split; [left; by apply truthy_false_nil|done].
Qed.

End Prompt.

(** X21.  Whatever the storage held, once the component is mounted the
    storage holds the prompt of the page under the key savedPrompt, and no
    other key was touched. *)
Theorem mount_stores_prompt (defaultPrompt : jsstring)
    (storage : gmap jsstring jsstring) :
  (Page.mount defaultPrompt storage).2 !! Page.SAVED_PROMPT =
    Some (Home.prompt (Page.mount defaultPrompt storage).1) /\
  delete Page.SAVED_PROMPT (Page.mount defaultPrompt storage).2 =
    delete Page.SAVED_PROMPT storage.
Proof.
  destruct (mount_stored defaultPrompt storage) as (Hs & Hd & _). done.
Qed.

(** X22.  A saved prompt that is not empty is restored on mount, instead of
    the default one, and the storage is left exactly as it was. *)
Theorem mount_restores_saved_prompt (defaultPrompt saved : jsstring)
    (storage : gmap jsstring jsstring) :
  storage !! Page.SAVED_PROMPT = Some saved ->
  truthy saved = true ->
  Page.mount defaultPrompt storage = (Page.setPrompt saved Page.initial, storage).
Proof.
  intros Hs Ht. unfold Page.mount, Page.loadPrompt. rewrite Hs, Ht.
  cbn. unfold Page.savePrompt. rewrite Ht. by rewrite insert_id.
Qed.

Lemma mount_restores_saved_prompt_witness :
  Page.mount (lit "default") {[Page.SAVED_PROMPT := lit "mine"]} =
  (Page.setPrompt (lit "mine") Page.initial,
   {[Page.SAVED_PROMPT := lit "mine"]}).
Proof.
  apply (mount_restores_saved_prompt (lit "default") (lit "mine")).
  - apply lookup_singleton_eq.
  - reflexivity.
Defined.

(** X23.  After any sequence of edits of the prompt, a reload of the page
    restores the last prompt that was not empty, counting the one the page
    was mounted with, and the default prompt when there was none.  Clearing
    the text area therefore does not clear what is stored.  The edits touch
    no other key of the storage. *)
Theorem prompt_restored_on_reload (defaultPrompt : jsstring)
    (storage : gmap jsstring jsstring) (edits : list jsstring) :
  Home.prompt
    (Page.mount defaultPrompt
       (foldl (fun pg v => Page.editPrompt v pg)
          (Page.mount defaultPrompt storage) edits).2).1 =
    default defaultPrompt
      (last (filter (fun p => truthy p = true)
               (Home.prompt (Page.mount defaultPrompt storage).1 :: edits))) /\
  delete Page.SAVED_PROMPT
    (foldl (fun pg v => Page.editPrompt v pg)
       (Page.mount defaultPrompt storage) edits).2 =
    delete Page.SAVED_PROMPT storage.
Proof.
  destruct (edits_invariant defaultPrompt storage edits) as (Hs & _ & Hd).
  cbn zeta in *. split; [|done].
  rewrite (mount_prompt_of_saved _ _ _ Hs).
  set (held := filter _ _) in *.
  destruct (last held) as [q|] eqn:Eq.
  - assert (truthy q = true) as Hq.
    { apply last_Some_elem_of in Eq. unfold held in Eq.
      by apply list_elem_of_filter in Eq as [Hq _]. }
    unfold default. cbn. by rewrite Hq.
  - unfold default. cbn. by destruct (truthy defaultPrompt).
Qed.

(** X24.  While the prompt is not empty the storage holds it: every edit to
    a prompt that is not empty is saved at once. *)
Theorem edited_prompt_is_stored (defaultPrompt : jsstring)
    (storage : gmap jsstring jsstring) (edits : list jsstring) :
  Home.prompt
    (foldl (fun pg v => Page.editPrompt v pg)
       (Page.mount defaultPrompt storage) edits).1 = [] \/
  (foldl (fun pg v => Page.editPrompt v pg)
     (Page.mount defaultPrompt storage) edits).2 !! Page.SAVED_PROMPT =
  Some (Home.prompt
          (foldl (fun pg v => Page.editPrompt v pg)
             (Page.mount defaultPrompt storage) edits).1).
Proof.
  by destruct (edits_invariant defaultPrompt storage edits) as (_ & Hj & _).
Qed.
